(** * bitECS entity lifecycle (src/Entity.ts)

    A shallow embedding of the entity module: the process-wide allocator
    state (cursor, capacity, recycle pool, reuse threshold, id -> world map),
    the per-world bookkeeping that [addEntity] and [removeEntity] mutate, and
    the two read-only accessors [getEntityComponents] and [entityExists].

    Numbers.  Entity ids, the cursor and the capacities are JavaScript
    numbers that only ever hold integers; they are [Z] here.  The three
    places where the source leaves the integers are kept in [Q]:
    [globalSize / 5] in [resizeThreshold], [size / 2 / 4] under [Math.ceil],
    and [defaultSize * removedReuseThreshold] under [Math.round].  For
    integer sizes below 2^50 the double results of these expressions compare
    with integers exactly as the rationals do (a non-integer [4s/5] is at
    least 1/5 away from every integer, far more than a rounding error), so
    the rational model and the doubles take the same branches. *)

From Stdlib Require Import ZArith QArith Qround Lia.
From stdpp Require Import base option list list_numbers gmap sets strings functions.

Local Open Scope Z_scope.
#[local] Set Warnings "-clear-no-such-hyp".

(** ** JavaScript built-ins used by the module *)

Module JS.

(** [Math.ceil] on a rational. *)
Definition Math_ceil (x : Q) : Z := Qceiling x.

(** [Math.round]: nearest integer, halves towards +infinity. *)
Definition Math_round (x : Q) : Z := Qfloor (x + (1 # 2))%Q.

(** [Array.prototype.shift]: removes and returns the first element;
    [undefined] (here [None]) on an empty array. *)
Definition shift {A} (a : list A) : option A * list A :=
  match a with
  | [] => (None, [])
  | x :: rest => (Some x, rest)
  end.

(** [Array.prototype.push] of one element. *)
Definition push {A} (a : list A) (x : A) : list A := a ++ [x].

(** What a function call can produce: a value or a thrown exception. *)
Inductive Thrown : Type :=
  | Error (message : string)
  | TypeError.

Inductive Completion (A : Type) : Type :=
  | Return (a : A)
  | Throw (e : Thrown).

Inductive Value : Type :=
  | undefined
  | boolean (b : bool).

End JS.

Import JS.
Arguments Return {A} a.
Arguments Throw {A} e.

(** ** Data model *)

(** Worlds are JavaScript objects; a [WorldRef] is the identity of one. *)
Definition WorldRef : Type := nat.

(** Modelled from the spec: the sparse set (Util.js is not among the
    sources) is "a set-like structure mapping entity id -> presence,
    supporting add/remove/has"; it is a [gset Z] here. *)
Definition SparseSet : Type := gset Z.
Definition sparse_has (s : SparseSet) (eid : Z) : bool := bool_decide (eid ∈ s).
Definition sparse_add (s : SparseSet) (eid : Z) : SparseSet := {[eid]} ∪ s.
Definition sparse_remove (s : SparseSet) (eid : Z) : SparseSet := s ∖ {[eid]}.

(** One bitmask row, indexed by entity id: [row[eid] = v] stores [v] under
    [eid]. *)
Definition MaskRow : Type := gmap Z Z.

(** The symbol-keyed fields of a world that this module touches.
    [queries] is the set of registered query objects in iteration order;
    [notQueries] is the subset matching on absence, given by the positions
    of its members in [queries], so that both collections share the query
    objects as they do in the source. *)
Record World (C Qy : Type) : Type := mkWorld {
  entitySparseSet : SparseSet;
  entityComponents : gmap Z (list C);
  entityMasks : list MaskRow;
  localEntities : gmap Z Z;
  localEntityLookup : gmap Z Z;
  queries : list Qy;
  notQueries : list nat
}.
Arguments mkWorld {C Qy}.
Arguments entitySparseSet {C Qy} w.
Arguments entityComponents {C Qy} w.
Arguments entityMasks {C Qy} w.
Arguments localEntities {C Qy} w.
Arguments localEntityLookup {C Qy} w.
Arguments queries {C Qy} w.
Arguments notQueries {C Qy} w.

(** The module-level variables of Entity.ts, the worlds they refer to, the
    state of the component and serialization collaborators ([stores]) and
    the notices written by [console.info] (old size, new size). *)
Record State (C Qy St : Type) : Type := mkState {
  defaultSize : Z;
  globalEntityCursor : Z;
  globalSize : Z;
  removed : list Z;
  removedReuseThreshold : Q;
  eidToWorld : gmap Z WorldRef;
  worlds : WorldRef → World C Qy;
  stores : St;
  console : list (Z * Z)
}.
Arguments mkState {C Qy St}.
Arguments defaultSize {C Qy St} s.
Arguments globalEntityCursor {C Qy St} s.
Arguments globalSize {C Qy St} s.
Arguments removed {C Qy St} s.
Arguments removedReuseThreshold {C Qy St} s.
Arguments eidToWorld {C Qy St} s.
Arguments worlds {C Qy St} s.
Arguments stores {C Qy St} s.
Arguments console {C Qy St} s.

(** The collaborators imported from Component.js, Query.js, World.js and
    Serialize.js, none of which is among the sources.  Their carriers and
    behaviour are left open; the signatures follow the call sites and the
    interface section of the specification.  [resizeMasks] is what
    [resizeWorlds] does to the bitmask rows of one world. *)
Class Collaborators : Type := {
  Component : Type;
  Query : Type;
  Store : Type;
  queryCheckEntity : World Component Query → Query → Z → bool;
  queryAddEntity : Query → Z → Query;
  queryRemoveEntity : World Component Query → Query → Z → Query;
  resizeMasks : Z → list MaskRow → list MaskRow;
  resizeComponents : Z → Store → Store;
  setSerializationResized : bool → Store → Store
}.

Abbreviation world := (World Component Query).
Abbreviation state := (State Component Query Store).

(** ** Module-level constants and accessors *)

Definition initialDefaultSize : Z := 100000.
Definition defaultRemovedReuseThreshold : Q := (1 # 100)%Q.

(** [globalSize - globalSize / 5] *)
Definition resizeThreshold `{Collaborators} (σ : state) : Q :=
  (inject_Z (globalSize σ) - inject_Z (globalSize σ) / 5)%Q.

Definition getGlobalSize `{Collaborators} (σ : state) : Z := globalSize σ.
Definition getDefaultSize `{Collaborators} (σ : state) : Z := defaultSize σ.
Definition getEntityCursor `{Collaborators} (σ : state) : Z := globalEntityCursor σ.
Definition getRemovedEntities `{Collaborators} (σ : state) : list Z := removed σ.

(** The state right after the module is loaded, for given worlds and
    collaborator state. *)
Definition moduleLoad `{Collaborators} (ws : WorldRef → world) (st : Store) : state :=
  mkState initialDefaultSize 0 initialDefaultSize [] defaultRemovedReuseThreshold
          ∅ ws st [].

(** A world without entities, queries or bitmask rows. *)
Definition emptyWorld `{Collaborators} : world :=
  mkWorld ∅ ∅ [] ∅ ∅ [] [].

(** ** resetGlobals, setDefaultSize, setRemovedRecycleThreshold *)

Definition resetGlobals `{Collaborators} (σ : state) : state :=
  mkState (defaultSize σ)
          0
          (defaultSize σ)
          []
          defaultRemovedReuseThreshold
          (eidToWorld σ) (worlds σ) (stores σ) (console σ).

(** Modelled from the spec: [resizeWorlds] (World.js is not among the
    sources) is the "per-world bitmask/array resizing" that reallocates
    the rows of every world to the new capacity. *)
Definition resizeWorlds `{Collaborators} (newSize : Z) (ws : WorldRef → world)
  : WorldRef → world :=
  λ r, let w := ws r in
       mkWorld (entitySparseSet w) (entityComponents w)
               (resizeMasks newSize (entityMasks w))
               (localEntities w) (localEntityLookup w)
               (queries w) (notQueries w).

Definition setDefaultSize `{Collaborators} (newSize : Z) (σ : state) : state :=
  let oldSize := globalSize σ in
  (* defaultSize = newSize; resetGlobals(); *)
  let σ1 := resetGlobals
              (mkState newSize (globalEntityCursor σ) (globalSize σ) (removed σ)
                       (removedReuseThreshold σ) (eidToWorld σ) (worlds σ)
                       (stores σ) (console σ)) in
  (* globalSize = newSize; resizeWorlds; resizeComponents;
     setSerializationResized(true); console.info *)
  mkState (defaultSize σ1) (globalEntityCursor σ1) newSize (removed σ1)
          (removedReuseThreshold σ1) (eidToWorld σ1)
          (resizeWorlds newSize (worlds σ1))
          (setSerializationResized true (resizeComponents newSize (stores σ1)))
          (push (console σ1) (oldSize, newSize)).

Definition setRemovedRecycleThreshold `{Collaborators} (newThreshold : Q) (σ : state)
  : state :=
  mkState (defaultSize σ) (globalEntityCursor σ) (globalSize σ) (removed σ)
          newThreshold (eidToWorld σ) (worlds σ) (stores σ) (console σ).

(** ** addEntity *)

(** The growth check at the head of [addEntity]: "if data stores are 80%
    full", grow by half the size rounded up to a multiple of 4. *)
Definition storesFull `{Collaborators} (σ : state) : bool :=
  Qle_bool (resizeThreshold σ) (inject_Z (globalEntityCursor σ)).

Definition growIfFull `{Collaborators} (σ : state) : state :=
  if storesFull σ then
    let size := globalSize σ in
    let amount := Math_ceil (inject_Z size / 2 / 4)%Q * 4 in
    setDefaultSize (size + amount) σ
  else σ.

(** [removed.length > Math.round(defaultSize * removedReuseThreshold)] *)
Definition reuseDue `{Collaborators} (σ : state) : bool :=
  Z.of_nat (length (removed σ))
  >? Math_round (inject_Z (defaultSize σ) * removedReuseThreshold σ)%Q.

(** [reuseDue ? removed.shift()! : globalEntityCursor++].  The non-null
    assertion on [shift()] is the one place where the source trusts a value
    it has not checked; [None] is the case where the assertion is violated
    (an empty pool with a negative reuse bound), after which the source
    works with [undefined] as an id and the model stops. *)
Definition nextEid `{Collaborators} (σ : state) : option (Z * state) :=
  if reuseDue σ then
    match shift (removed σ) with
    | (Some eid, rest) =>
        Some (eid, mkState (defaultSize σ) (globalEntityCursor σ) (globalSize σ) rest
                           (removedReuseThreshold σ) (eidToWorld σ) (worlds σ)
                           (stores σ) (console σ))
    | (None, _) => None
    end
  else
    Some (globalEntityCursor σ,
          mkState (defaultSize σ) (globalEntityCursor σ + 1) (globalSize σ) (removed σ)
                  (removedReuseThreshold σ) (eidToWorld σ) (worlds σ)
                  (stores σ) (console σ)).

Definition setQueries `{Collaborators} (w : world) (qs : list Query) : world :=
  mkWorld (entitySparseSet w) (entityComponents w) (entityMasks w)
          (localEntities w) (localEntityLookup w) qs (notQueries w).

(** One round of [world[$notQueries].forEach]: the query object at
    position [i] receives the entity when it matches. *)
Definition notQueryStep `{Collaborators} (eid : Z) (w : world) (i : nat) : world :=
  match queries w !! i with
  | Some q =>
      if queryCheckEntity w q eid
      then setQueries w (<[i := queryAddEntity q eid]> (queries w))
      else w
  | None => w
  end.

(** What [addEntity] does to the world once the id is known. *)
Definition enterWorld `{Collaborators} (eid : Z) (w : world) : world :=
  (* world[$entitySparseSet].add(eid) *)
  let w1 := mkWorld (sparse_add (entitySparseSet w) eid) (entityComponents w)
                    (entityMasks w) (localEntities w) (localEntityLookup w)
                    (queries w) (notQueries w) in
  (* world[$notQueries].forEach(...) *)
  let w2 := foldl (notQueryStep eid) w1 (notQueries w1) in
  (* world[$entityComponents].set(eid, new Set()) *)
  mkWorld (entitySparseSet w2) (<[eid := []]> (entityComponents w2))
          (entityMasks w2) (localEntities w2) (localEntityLookup w2)
          (queries w2) (notQueries w2).

Definition addEntity `{Collaborators} (σ : state) (r : WorldRef) : option (Z * state) :=
  '(eid, σ1) ← nextEid (growIfFull σ);
  Some (eid,
        mkState (defaultSize σ1) (globalEntityCursor σ1) (globalSize σ1) (removed σ1)
                (removedReuseThreshold σ1)
                (<[eid := r]> (eidToWorld σ1))
                (<[r := enterWorld eid (worlds σ1 r)]> (worlds σ1))
                (stores σ1) (console σ1)).

(** ** removeEntity *)

(** One round of [world[$queries].forEach]. *)
Definition queryStep `{Collaborators} (eid : Z) (w : world) (i : nat) : world :=
  match queries w !! i with
  | Some q => setQueries w (<[i := queryRemoveEntity w q eid]> (queries w))
  | None => w
  end.

(** [for (i ...) world[$entityMasks][i][eid] = 0] *)
Definition clearMasks (eid : Z) (rows : list MaskRow) : list MaskRow :=
  (λ row : MaskRow, <[eid := 0]> row) <$> rows.

(** [world[$localEntities].delete(world[$localEntityLookup].get(eid))];
    a lookup that finds nothing yields [undefined], which is no key of the
    number-keyed map. *)
Definition forgetLocal (w_localEntities w_localEntityLookup : gmap Z Z) (eid : Z)
  : gmap Z Z :=
  match w_localEntityLookup !! eid with
  | Some lid => delete lid w_localEntities
  | None => w_localEntities
  end.

(** What [removeEntity] does to the world of a live entity. *)
Definition leaveWorld `{Collaborators} (eid : Z) (w : world) : world :=
  let w1 := foldl (queryStep eid) w (seq 0 (length (queries w))) in
  mkWorld (sparse_remove (entitySparseSet w1) eid)
          (delete eid (entityComponents w1))
          (clearMasks eid (entityMasks w1))
          (forgetLocal (localEntities w1) (localEntityLookup w1) eid)
          (delete eid (localEntityLookup w1))
          (queries w1) (notQueries w1).

Definition removeEntity `{Collaborators} (σ : state) (r : WorldRef) (eid : Z) : state :=
  if negb (sparse_has (entitySparseSet (worlds σ r)) eid) then σ
  else
    mkState (defaultSize σ) (globalEntityCursor σ) (globalSize σ)
            (push (removed σ) eid)
            (removedReuseThreshold σ) (eidToWorld σ)
            (<[r := leaveWorld eid (worlds σ r)]> (worlds σ))
            (stores σ) (console σ).

(** ** getEntityComponents, entityExists *)

Definition InvalidEntity : Thrown := Error "bitECS - entity is undefined.".
Definition EntityNotFound : Thrown := Error "bitECS - entity does not exist in the world.".

(** The id argument may be [undefined] ([None]).  [Array.from] of a tag set
    lists it in insertion order; [Array.from(undefined)], reached when a
    live id has no tag set, is a [TypeError]. *)
Definition getEntityComponents `{Collaborators} (w : world) (eid : option Z)
  : Completion (list Component) :=
  match eid with
  | None => Throw InvalidEntity
  | Some e =>
      if negb (sparse_has (entitySparseSet w) e) then Throw EntityNotFound
      else match entityComponents w !! e with
           | Some tags => Return tags
           | None => Throw TypeError
           end
  end.

(** The body evaluates the membership test as an expression statement and
    falls off the end. *)
Definition entityExists `{Collaborators} (w : world) (eid : Z) : Value :=
  let _ := sparse_has (entitySparseSet w) eid in
  undefined.

(** ** Sequences of calls *)

(** [addEntity] once per world reference of [rs], in order; the ids in
    order of return and the final state. *)
Fixpoint addEntities `{Collaborators} (σ : state) (rs : list WorldRef)
  : option (list Z * state) :=
  match rs with
  | [] => Some ([], σ)
  | r :: rs' =>
      '(eid, σ1) ← addEntity σ r;
      '(eids, σ2) ← addEntities σ1 rs';
      Some (eid :: eids, σ2)
  end.

(** [removeEntity(world, eid)] for each id of [eids], in order. *)
Definition removeEntities `{Collaborators} (σ : state) (r : WorldRef) (eids : list Z)
  : state :=
  foldl (λ σ' eid, removeEntity σ' r eid) σ eids.

(** An id is live in a world when the world's sparse set holds it. *)
Definition live `{Collaborators} (σ : state) (r : WorldRef) (eid : Z) : Prop :=
  eid ∈ entitySparseSet (worlds σ r).

(** Two worlds that differ at most in their query objects. *)
Definition sameButQueries `{Collaborators} (w w' : world) : Prop :=
  entitySparseSet w' = entitySparseSet w
  ∧ entityComponents w' = entityComponents w
  ∧ entityMasks w' = entityMasks w
  ∧ localEntities w' = localEntities w
  ∧ localEntityLookup w' = localEntityLookup w
  ∧ notQueries w' = notQueries w.

(** A configuration in which capacities are positive entity counts and the
    reuse threshold is a non-negative fraction. *)
Definition sane `{Collaborators} (σ : state) : Prop :=
  0 < globalSize σ ∧ 0 ≤ defaultSize σ ∧ (0 <= removedReuseThreshold σ)%Q.

(** Every live id of the world has a tag set. *)
Definition tagged `{Collaborators} (w : world) : Prop :=
  ∀ eid, eid ∈ entitySparseSet w → is_Some (entityComponents w !! eid).

(** A newly created world: no entities yet, whatever queries and bitmask
    rows have been registered. *)
Definition createWorld `{Collaborators}
    (qs : list Query) (nqs : list nat) (rows : list MaskRow) : world :=
  mkWorld ∅ ∅ rows ∅ ∅ qs nqs.

(** The state in which a program starts to add entities: the module just
    loaded, every world newly created. *)
Definition freshState `{Collaborators}
    (qs : WorldRef → list Query) (nqs : WorldRef → list nat)
    (rows : WorldRef → list MaskRow) (st : Store) : state :=
  moduleLoad (λ r, createWorld (qs r) (nqs r) (rows r)) st.

(** The bookkeeping the allocator is meant to keep: a live id is recorded
    in [eidToWorld] under the world that holds it, lies below the cursor and
    is not pooled; pooled ids lie below the cursor and are pooled once. *)
Definition consistent `{Collaborators} (σ : state) : Prop :=
  (∀ r eid, live σ r eid → eidToWorld σ !! eid = Some r)
  ∧ (∀ r eid, live σ r eid → eid < globalEntityCursor σ ∧ eid ∉ removed σ)
  ∧ (∀ eid, eid ∈ removed σ → eid < globalEntityCursor σ)
  ∧ NoDup (removed σ).

(** Collaborators that do nothing, over one-element carriers. *)
Definition idle : Collaborators :=
  {| Component := unit; Query := unit; Store := unit;
     queryCheckEntity := λ _ _ _, false;
     queryAddEntity := λ q _, q;
     queryRemoveEntity := λ _ q _, q;
     resizeMasks := λ _ rows, rows;
     resizeComponents := λ _ st, st;
     setSerializationResized := λ _ st, st |}.

(** A small configuration for examples: world 0 holds entity 7, tagged
    with one component, with two bitmask rows and a deserialization entry
    (local id 3); every other world is empty. *)
Definition demoWorld : @World (@Component idle) (@Query idle) :=
  mkWorld {[7]} {[7 := [tt]]} [{[7 := 5]}; ∅] {[3 := 7]} {[7 := 3]} [tt] [0%nat].

Definition demoState : @State (@Component idle) (@Query idle) (@Store idle) :=
  mkState 100000 8 100000 [] (1 # 100)%Q {[7 := 0%nat]}
          (λ r, match r with O => demoWorld | S _ => @emptyWorld idle end) tt [].

(** The default configuration with the cursor at 80% of the capacity. *)
Definition fullState : @State (@Component idle) (@Query idle) (@Store idle) :=
  mkState 100000 80000 100000 [] (1 # 100)%Q ∅ (λ _, @emptyWorld idle) tt [].

(** [setDefaultSize(5)] right after the module is loaded: the same
    allocator at a capacity small enough to run by hand. *)
Definition smallState : @State (@Component idle) (@Query idle) (@Store idle) :=
  @setDefaultSize idle 5 (@moduleLoad idle (λ _, @emptyWorld idle) tt).

(** ** Interleaved calls of the exported functions *)

(** One call of a state-changing export of the module. *)
Inductive Call : Type :=
  | CallAddEntity (r : WorldRef)
  | CallRemoveEntity (r : WorldRef) (eid : Z)
  | CallSetDefaultSize (newSize : Z)
  | CallSetRemovedRecycleThreshold (newThreshold : Q)
  | CallResetGlobals.

(** The id a call returns, if it returns one, and the state it leaves. *)
Definition call `{Collaborators} (σ : state) (c : Call) : option (option Z * state) :=
  match c with
  | CallAddEntity r => '(eid, σ') ← addEntity σ r; Some (Some eid, σ')
  | CallRemoveEntity r eid => Some (None, removeEntity σ r eid)
  | CallSetDefaultSize newSize => Some (None, setDefaultSize newSize σ)
  | CallSetRemovedRecycleThreshold t => Some (None, setRemovedRecycleThreshold t σ)
  | CallResetGlobals => Some (None, resetGlobals σ)
  end.

(** A sequence of calls: the ids returned, in order, and the final state. *)
Fixpoint calls `{Collaborators} (σ : state) (cs : list Call)
  : option (list Z * state) :=
  match cs with
  | [] => Some ([], σ)
  | c :: cs' =>
      '(ret, σ1) ← call σ c;
      '(ids, σ2) ← calls σ1 cs';
      Some (match ret with Some eid => eid :: ids | None => ids end, σ2)
  end.

(** The two calls of an entity's life cycle, as opposed to configuration. *)
Definition lifecycle (c : Call) : bool :=
  match c with
  | CallAddEntity _ | CallRemoveEntity _ _ => true
  | _ => false
  end.

(** Every id the allocator knows (live in some world or pooled) is a valid
    index into stores of the current capacity, the cursor is within the
    capacity, and the configuration is sane. *)
Definition inBounds `{Collaborators} (σ : state) : Prop :=
  sane σ
  ∧ 0 ≤ globalEntityCursor σ ≤ globalSize σ
  ∧ (∀ r eid, live σ r eid → 0 ≤ eid < globalSize σ)
  ∧ (∀ eid, eid ∈ removed σ → 0 ≤ eid < globalSize σ).

(** Every live id has an entry in [eidToWorld]. *)
Definition recorded `{Collaborators} (σ : state) : Prop :=
  ∀ r eid, live σ r eid → is_Some (eidToWorld σ !! eid).


(** * Properties *)

(** ** Arithmetic of the two thresholds *)

Lemma storesFull_scaled `{Collaborators} (σ : state) :
  storesFull σ = true ↔ 4 * globalSize σ ≤ 5 * globalEntityCursor σ.
Proof.
  unfold storesFull, resizeThreshold. rewrite Qle_bool_iff.
  unfold Qle, Qminus, Qdiv, Qplus, Qopp, Qmult, Qinv, inject_Z. simpl. lia.
Qed.

Lemma storesFull_floor `{Collaborators} (σ : state) :
  storesFull σ = true ↔ globalSize σ - globalSize σ / 5 ≤ globalEntityCursor σ.
Proof.
  rewrite storesFull_scaled. Z.to_euclidean_division_equations. lia.
Qed.

Lemma storesFull_false `{Collaborators} (σ : state) :
  storesFull σ = false ↔ 5 * globalEntityCursor σ < 4 * globalSize σ.
Proof.
  rewrite <- not_true_iff_false, storesFull_scaled. lia.
Qed.

Lemma growth_amount (s : Z) :
  Math_ceil (inject_Z s / 2 / 4)%Q * 4 = (s + 7) / 8 * 4.
Proof.
  unfold Math_ceil, Qceiling, Qfloor, Qdiv, Qopp, Qmult, Qinv, inject_Z. simpl.
  Z.to_euclidean_division_equations. lia.
Qed.

Lemma growth_amount_nonneg (s : Z) :
  0 ≤ s → 0 ≤ Math_ceil (inject_Z s / 2 / 4)%Q * 4.
Proof.
  intros Hs. rewrite growth_amount. Z.to_euclidean_division_equations. lia.
Qed.

Lemma Math_round_nonneg (x : Q) : (0 <= x)%Q → 0 ≤ Math_round x.
Proof.
  intros Hx. unfold Math_round.
  change 0 with (Qfloor 0). apply Qfloor_resp_le.
  apply Qle_trans with x; [done|].
  rewrite <- (Qplus_0_r x) at 1. apply Qplus_le_r. done.
Qed.

Lemma reuse_bound_nonneg (d : Z) (t : Q) :
  0 ≤ d → (0 <= t)%Q → 0 ≤ Math_round (inject_Z d * t)%Q.
Proof.
  intros Hd Ht. apply Math_round_nonneg, Qmult_le_0_compat; [|done].
  unfold Qle, inject_Z. simpl. lia.
Qed.

Lemma reuseDue_empty `{Collaborators} (σ : state) :
  removed σ = [] → 0 ≤ defaultSize σ → (0 <= removedReuseThreshold σ)%Q →
  reuseDue σ = false.
Proof.
  intros Hr Hd Ht. unfold reuseDue. rewrite Hr, Z.gtb_ltb. apply Z.ltb_ge.
  apply reuse_bound_nonneg; done.
Qed.

(** ** The query loops only touch query objects *)

Lemma sameButQueries_refl `{Collaborators} (w : world) : sameButQueries w w.
Proof. by repeat split. Qed.

Lemma sameButQueries_trans `{Collaborators} (w1 w2 w3 : world) :
  sameButQueries w1 w2 → sameButQueries w2 w3 → sameButQueries w1 w3.
Proof.
  unfold sameButQueries. intros (?&?&?&?&?&?) (?&?&?&?&?&?).
  repeat split; congruence.
Qed.

Lemma foldl_sameButQueries `{Collaborators} (f : world → nat → world) :
  (∀ w i, sameButQueries w (f w i)) →
  ∀ l w, sameButQueries w (foldl f w l).
Proof.
  intros Hf l. induction l as [|i l IH]; intros w; simpl.
  - apply sameButQueries_refl.
  - eapply sameButQueries_trans; [apply Hf | apply IH].
Qed.

Lemma notQueryStep_same `{Collaborators} eid (w : world) i :
  sameButQueries w (notQueryStep eid w i).
Proof.
  unfold notQueryStep. destruct (queries w !! i) as [q|]; [|apply sameButQueries_refl].
  destruct (queryCheckEntity w q eid); [by repeat split | apply sameButQueries_refl].
Qed.

Lemma queryStep_same `{Collaborators} eid (w : world) i :
  sameButQueries w (queryStep eid w i).
Proof.
  unfold queryStep. destruct (queries w !! i) as [q|]; [by repeat split|].
  apply sameButQueries_refl.
Qed.

Lemma enterWorld_sparse `{Collaborators} eid (w : world) :
  entitySparseSet (enterWorld eid w) = {[eid]} ∪ entitySparseSet w.
Proof.
  unfold enterWorld. simpl.
  match goal with |- context [foldl ?f ?a ?l] =>
    destruct (foldl_sameButQueries f (notQueryStep_same eid) l a) as (->&_) end.
  done.
Qed.

Lemma enterWorld_components `{Collaborators} eid (w : world) :
  entityComponents (enterWorld eid w) = <[eid := []]> (entityComponents w).
Proof.
  unfold enterWorld. simpl.
  match goal with |- context [foldl ?f ?a ?l] =>
    destruct (foldl_sameButQueries f (notQueryStep_same eid) l a) as (_&->&_) end.
  done.
Qed.

Lemma leaveWorld_fields `{Collaborators} eid (w : world) :
  entitySparseSet (leaveWorld eid w) = entitySparseSet w ∖ {[eid]}
  ∧ entityComponents (leaveWorld eid w) = delete eid (entityComponents w)
  ∧ entityMasks (leaveWorld eid w) = clearMasks eid (entityMasks w)
  ∧ localEntities (leaveWorld eid w)
    = forgetLocal (localEntities w) (localEntityLookup w) eid
  ∧ localEntityLookup (leaveWorld eid w) = delete eid (localEntityLookup w).
Proof.
  unfold leaveWorld. simpl.
  match goal with |- context [foldl ?f ?a ?l] =>
    destruct (foldl_sameButQueries f (queryStep_same eid) l a)
      as (->&->&->&->&->&_) end.
  done.
Qed.

(** ** One call of addEntity *)

Lemma growIfFull_idle `{Collaborators} (σ : state) :
  storesFull σ = false → growIfFull σ = σ.
Proof. intros Hf. unfold growIfFull. by rewrite Hf. Qed.

Lemma growIfFull_full `{Collaborators} (σ : state) :
  storesFull σ = true →
  growIfFull σ
  = setDefaultSize (globalSize σ + Math_ceil (inject_Z (globalSize σ) / 2 / 4)%Q * 4) σ.
Proof. intros Hf. unfold growIfFull. by rewrite Hf. Qed.

Lemma growIfFull_sparse `{Collaborators} (σ : state) r :
  entitySparseSet (worlds (growIfFull σ) r) = entitySparseSet (worlds σ r).
Proof. unfold growIfFull. by destruct (storesFull σ). Qed.

Lemma growIfFull_components `{Collaborators} (σ : state) r :
  entityComponents (worlds (growIfFull σ) r) = entityComponents (worlds σ r).
Proof. unfold growIfFull. by destruct (storesFull σ). Qed.

Lemma growIfFull_eidToWorld `{Collaborators} (σ : state) :
  eidToWorld (growIfFull σ) = eidToWorld σ.
Proof. unfold growIfFull. by destruct (storesFull σ). Qed.

Lemma nextEid_inv `{Collaborators} (σ σ1 : state) eid :
  nextEid σ = Some (eid, σ1) →
  defaultSize σ1 = defaultSize σ ∧ globalSize σ1 = globalSize σ
  ∧ removedReuseThreshold σ1 = removedReuseThreshold σ
  ∧ eidToWorld σ1 = eidToWorld σ ∧ worlds σ1 = worlds σ
  ∧ ((reuseDue σ = true ∧ removed σ = eid :: removed σ1
      ∧ globalEntityCursor σ1 = globalEntityCursor σ)
     ∨ (reuseDue σ = false ∧ eid = globalEntityCursor σ
        ∧ globalEntityCursor σ1 = globalEntityCursor σ + 1
        ∧ removed σ1 = removed σ)).
Proof.
  unfold nextEid. destruct (reuseDue σ).
  - destruct (removed σ) as [|e rest]; simpl; [done|].
    intros [= <- <-]. simpl. repeat split; try done. left. done.
  - intros [= <- <-]. simpl. repeat split; try done. right. done.
Qed.

Lemma addEntity_inv `{Collaborators} (σ σ' : state) r eid :
  addEntity σ r = Some (eid, σ') →
  ∃ σ1, nextEid (growIfFull σ) = Some (eid, σ1)
        ∧ defaultSize σ' = defaultSize σ1
        ∧ globalEntityCursor σ' = globalEntityCursor σ1
        ∧ globalSize σ' = globalSize σ1
        ∧ removed σ' = removed σ1
        ∧ removedReuseThreshold σ' = removedReuseThreshold σ1
        ∧ eidToWorld σ' = <[eid := r]> (eidToWorld σ1)
        ∧ worlds σ' = <[r := enterWorld eid (worlds σ1 r)]> (worlds σ1).
Proof.
  unfold addEntity. destruct (nextEid (growIfFull σ)) as [[e σ1]|]; simpl; [|done].
  intros [= <- <-]. exists σ1. simpl. by repeat split.
Qed.

(** Without growth and without reuse the id is the cursor. *)
Lemma addEntity_fresh `{Collaborators} (σ : state) r :
  storesFull σ = false → reuseDue σ = false →
  addEntity σ r
  = Some (globalEntityCursor σ,
          mkState (defaultSize σ) (globalEntityCursor σ + 1) (globalSize σ)
                  (removed σ) (removedReuseThreshold σ)
                  (<[globalEntityCursor σ := r]> (eidToWorld σ))
                  (<[r := enterWorld (globalEntityCursor σ) (worlds σ r)]> (worlds σ))
                  (stores σ) (console σ)).
Proof.
  intros Hf Hr. unfold addEntity. rewrite (growIfFull_idle _ Hf).
  unfold nextEid. rewrite Hr. done.
Qed.

(** Without growth and with reuse due the id is the head of the pool. *)
Lemma addEntity_reuse `{Collaborators} (σ : state) r eid rest :
  storesFull σ = false → reuseDue σ = true → removed σ = eid :: rest →
  addEntity σ r
  = Some (eid,
          mkState (defaultSize σ) (globalEntityCursor σ) (globalSize σ)
                  rest (removedReuseThreshold σ)
                  (<[eid := r]> (eidToWorld σ))
                  (<[r := enterWorld eid (worlds σ r)]> (worlds σ))
                  (stores σ) (console σ)).
Proof.
  intros Hf Hr Hp. unfold addEntity. rewrite (growIfFull_idle _ Hf).
  unfold nextEid. rewrite Hr, Hp. done.
Qed.

(** When the growth check fires, [setDefaultSize] runs [resetGlobals]: the
    cursor restarts at 0 and the pool is emptied before the id is chosen,
    so the call returns id 0. *)
Lemma addEntity_grown `{Collaborators} (σ : state) r :
  storesFull σ = true → 0 ≤ globalSize σ →
  let size' := globalSize σ + Math_ceil (inject_Z (globalSize σ) / 2 / 4)%Q * 4 in
  ∃ σ', addEntity σ r = Some (0, σ')
        ∧ globalEntityCursor σ' = 1
        ∧ globalSize σ' = size' ∧ defaultSize σ' = size'
        ∧ removed σ' = []
        ∧ removedReuseThreshold σ' = defaultRemovedReuseThreshold.
Proof.
  intros Hf Hs size'. unfold addEntity. rewrite (growIfFull_full _ Hf).
  fold size'. unfold nextEid.
  rewrite reuseDue_empty; simpl; try done.
  - eexists. split; [done|]. simpl. by repeat split.
  - pose proof (growth_amount_nonneg _ Hs). subst size'. lia.
Qed.

Lemma addEntity_live `{Collaborators} (σ σ' : state) r eid r0 e0 :
  addEntity σ r = Some (eid, σ') →
  live σ' r0 e0 ↔ live σ r0 e0 ∨ (r0 = r ∧ e0 = eid).
Proof.
  intros (σ1 & Hn & _ & _ & _ & _ & _ & _ & Hw)%addEntity_inv.
  apply nextEid_inv in Hn as (_ & _ & _ & _ & Hw1 & _).
  unfold live. rewrite Hw, Hw1.
  destruct (decide (r0 = r)) as [->|Hne].
  - rewrite fn_lookup_insert, enterWorld_sparse, growIfFull_sparse. set_solver.
  - rewrite fn_lookup_insert_ne by done. rewrite growIfFull_sparse. naive_solver.
Qed.

Lemma addEntity_owner `{Collaborators} (σ σ' : state) r eid :
  addEntity σ r = Some (eid, σ') → eidToWorld σ' !! eid = Some r.
Proof.
  intros (σ1 & _ & _ & _ & _ & _ & _ & -> & _)%addEntity_inv.
  apply lookup_insert_eq.
Qed.

Lemma addEntity_tagged `{Collaborators} (σ σ' : state) r eid :
  addEntity σ r = Some (eid, σ') →
  (∀ r0, tagged (worlds σ r0)) → ∀ r0, tagged (worlds σ' r0).
Proof.
  intros Ha Ht r0 e0 He0.
  pose proof (proj1 (addEntity_live _ _ _ _ r0 e0 Ha) He0) as Hl.
  apply addEntity_inv in Ha as (σ1 & Hn & _ & _ & _ & _ & _ & _ & Hw).
  apply nextEid_inv in Hn as (_ & _ & _ & _ & Hw1 & _).
  rewrite Hw, Hw1. destruct (decide (r0 = r)) as [->|Hne].
  - rewrite fn_lookup_insert, enterWorld_components, growIfFull_components.
    destruct (decide (e0 = eid)) as [->|Hne].
    + rewrite lookup_insert_eq. by eexists.
    + rewrite lookup_insert_ne by done. apply Ht. naive_solver.
  - rewrite fn_lookup_insert_ne by done. rewrite growIfFull_components.
    apply Ht. naive_solver.
Qed.

(** ** Runs of addEntity *)

Lemma addEntities_app `{Collaborators} (σ : state) rs1 rs2 :
  addEntities σ (rs1 ++ rs2)
  = '(ids1, σ1) ← addEntities σ rs1;
    '(ids2, σ2) ← addEntities σ1 rs2;
    Some (ids1 ++ ids2, σ2).
Proof.
  revert σ. induction rs1 as [|r rs1 IH]; intros σ; simpl.
  - by destruct (addEntities σ rs2) as [[ids2 σ2]|].
  - destruct (addEntity σ r) as [[e σ1]|]; simpl; [|done].
    rewrite IH. destruct (addEntities σ1 rs1) as [[ids1 σ2]|]; simpl; [|done].
    by destruct (addEntities σ2 rs2) as [[ids2 σ3]|].
Qed.

Lemma addEntities_snoc `{Collaborators} (σ σ1 σ' : state) rs r ids eid :
  addEntities σ rs = Some (ids, σ1) → addEntity σ1 r = Some (eid, σ') →
  addEntities σ (rs ++ [r]) = Some (ids ++ [eid], σ').
Proof.
  intros Hr Ha. rewrite addEntities_app, Hr. simpl. rewrite Ha. done.
Qed.

(** As long as the growth check stays silent and reuse is not due, a run
    hands out the cursor values in order and changes no other global. *)
Lemma addEntities_fresh `{Collaborators} rs : ∀ σ : state,
  reuseDue σ = false →
  5 * (globalEntityCursor σ + Z.of_nat (length rs)) < 4 * globalSize σ + 5 →
  ∃ σ', addEntities σ rs
        = Some (seqZ (globalEntityCursor σ) (Z.of_nat (length rs)), σ')
        ∧ globalEntityCursor σ' = globalEntityCursor σ + Z.of_nat (length rs)
        ∧ globalSize σ' = globalSize σ
        ∧ defaultSize σ' = defaultSize σ
        ∧ removedReuseThreshold σ' = removedReuseThreshold σ
        ∧ removed σ' = removed σ.
Proof.
  induction rs as [|r rs IH]; intros σ Hr Hc.
  - exists σ. simpl. rewrite seqZ_nil by lia. repeat split; try done. lia.
  - simpl length in *.
    assert (storesFull σ = false) as Hf by (apply storesFull_false; lia).
    simpl. rewrite (addEntity_fresh _ _ Hf Hr). simpl.
    match goal with |- context [addEntities ?s rs] => set (σ1 := s) end.
    destruct (IH σ1) as (σ' & -> & Hc' & Hs' & Hd' & Ht' & Hp').
    + done.
    + subst σ1. simpl. lia.
    + exists σ'. simpl. subst σ1. simpl in *.
      rewrite (seqZ_cons (globalEntityCursor σ)) by lia.
      repeat split; try done; try lia.
      do 4 f_equal; lia.
Qed.

Lemma addEntities_live_mono `{Collaborators} rs : ∀ (σ σ' : state) ids r0 e0,
  addEntities σ rs = Some (ids, σ') → live σ r0 e0 → live σ' r0 e0.
Proof.
  induction rs as [|r rs IH]; intros σ σ' ids r0 e0; simpl.
  - by intros [= <- <-].
  - destruct (addEntity σ r) as [[e σ1]|] eqn:Ha; simpl; [|done].
    destruct (addEntities σ1 rs) as [[es σ2]|] eqn:Hr; simpl; [|done].
    intros [= <- <-] Hl. eapply IH; [done|].
    apply (addEntity_live _ _ _ _ r0 e0 Ha). by left.
Qed.

Lemma addEntities_live_ids `{Collaborators} rs : ∀ (σ σ' : state) ids i r e,
  addEntities σ rs = Some (ids, σ') →
  rs !! i = Some r → ids !! i = Some e → live σ' r e.
Proof.
  induction rs as [|r0 rs IH]; intros σ σ' ids i r e; simpl; [done|].
  destruct (addEntity σ r0) as [[e0 σ1]|] eqn:Ha; simpl; [|done].
  destruct (addEntities σ1 rs) as [[es σ2]|] eqn:Hr; simpl; [|done].
  intros [= <- <-]. destruct i as [|i]; simpl.
  - intros [= <-] [= <-]. eapply addEntities_live_mono; [done|].
    apply (addEntity_live _ _ _ _ r0 e0 Ha). by right.
  - intros Hi He. eapply IH; done.
Qed.

(** ** One call of removeEntity *)

Lemma sparse_has_live `{Collaborators} (σ : state) r eid :
  sparse_has (entitySparseSet (worlds σ r)) eid = true ↔ live σ r eid.
Proof. unfold sparse_has, live. apply bool_decide_eq_true. Qed.

Lemma removeEntity_absent `{Collaborators} (σ : state) r eid :
  ¬ live σ r eid → removeEntity σ r eid = σ.
Proof.
  intros Hn. unfold removeEntity.
  destruct (sparse_has _ eid) eqn:Hh; [|done].
  by apply sparse_has_live in Hh.
Qed.

Lemma removeEntity_present `{Collaborators} (σ : state) r eid :
  live σ r eid →
  removeEntity σ r eid
  = mkState (defaultSize σ) (globalEntityCursor σ) (globalSize σ)
            (removed σ ++ [eid])
            (removedReuseThreshold σ) (eidToWorld σ)
            (<[r := leaveWorld eid (worlds σ r)]> (worlds σ))
            (stores σ) (console σ).
Proof.
  intros Hl. unfold removeEntity.
  destruct (sparse_has _ eid) eqn:Hh; [done|].
  apply sparse_has_live in Hl. congruence.
Qed.

Lemma removeEntity_liveness `{Collaborators} (σ : state) r eid r0 e0 :
  live (removeEntity σ r eid) r0 e0 ↔ live σ r0 e0 ∧ ¬ (r0 = r ∧ e0 = eid).
Proof.
  destruct (decide (eid ∈ entitySparseSet (worlds σ r))) as [Hl|Hn];
    fold (live σ r eid) in *.
  - rewrite (removeEntity_present _ _ _ Hl). unfold live. simpl.
    destruct (decide (r0 = r)) as [->|Hne].
    + rewrite fn_lookup_insert.
      destruct (leaveWorld_fields eid (worlds σ r)) as (-> & _).
      rewrite elem_of_difference, elem_of_singleton. naive_solver.
    + rewrite fn_lookup_insert_ne by done. naive_solver.
  - rewrite (removeEntity_absent _ _ _ Hn). naive_solver.
Qed.

Lemma removeEntity_globals `{Collaborators} (σ : state) r eid :
  defaultSize (removeEntity σ r eid) = defaultSize σ
  ∧ globalEntityCursor (removeEntity σ r eid) = globalEntityCursor σ
  ∧ globalSize (removeEntity σ r eid) = globalSize σ
  ∧ removedReuseThreshold (removeEntity σ r eid) = removedReuseThreshold σ
  ∧ eidToWorld (removeEntity σ r eid) = eidToWorld σ.
Proof. unfold removeEntity. by destruct (negb _). Qed.

(** Removing distinct live ids of one world appends them to the pool in
    the order of removal. *)
Lemma removeEntities_pool `{Collaborators} r eids : ∀ σ : state,
  NoDup eids → (∀ eid, eid ∈ eids → live σ r eid) →
  let σ' := removeEntities σ r eids in
  removed σ' = removed σ ++ eids
  ∧ defaultSize σ' = defaultSize σ
  ∧ globalEntityCursor σ' = globalEntityCursor σ
  ∧ globalSize σ' = globalSize σ
  ∧ removedReuseThreshold σ' = removedReuseThreshold σ
  ∧ (∀ r0 e0, live σ' r0 e0 ↔ live σ r0 e0 ∧ ¬ (r0 = r ∧ e0 ∈ eids)).
Proof.
  induction eids as [|e eids IH]; intros σ Hnd Hl; simpl.
  - rewrite app_nil_r. split_and!; try done.
    intros r0 e0. split.
    + intros Hl0. split; [done|]. intros (_ & Hin). by apply elem_of_nil in Hin.
    + by intros (? & _).
  - apply list.NoDup_cons in Hnd as (Hne & Hnd).
    destruct (IH (removeEntity σ r e) Hnd) as (Hp & Hd & Hc & Hs & Ht & Hlv).
    { intros e1 He1. apply removeEntity_liveness. split.
      - apply Hl. by right.
      - intros (_ & ->). done. }
    destruct (removeEntity_globals σ r e) as (Hd1 & Hc1 & Hs1 & Ht1 & _).
    unfold removeEntities in *. simpl in *.
    rewrite Hp, Hd, Hc, Hs, Ht, Hd1, Hc1, Hs1, Ht1.
    rewrite (removeEntity_present σ r e) at 1 by (apply Hl; by left). simpl.
    rewrite <- app_assoc. split_and!; try done.
    intros r0 e0. rewrite Hlv, removeEntity_liveness, elem_of_cons.
    split.
    + intros ((Hl0 & Hn1) & Hn0). split; [done|].
      intros (-> & [->|Hin]); [by apply Hn1 | by apply Hn0].
    + intros (Hl0 & Hn0). split_and!; [done| |].
      * intros (-> & ->). apply Hn0. split; [done|by left].
      * intros (-> & Hin). apply Hn0. split; [done|by right].
Qed.

(** ** removeEntity: effects, idempotence *)

(** C6.  For an id that is live in the world, [removeEntity] pushes the id
    onto the tail of the global recycle pool, removes it from the world's
    sparse set and from its component-tag map, deletes the deserialization
    entries of the id (its entry in the global-to-local lookup and the
    local-to-global entry that lookup named), and stores 0 under the id in
    every bitmask row of the world. *)
Theorem removeEntity_effects `{Collaborators} (σ : state) r eid :
  live σ r eid →
  let w := worlds σ r in
  let σ' := removeEntity σ r eid in
  let w' := worlds σ' r in
  removed σ' = removed σ ++ [eid]
  ∧ ¬ live σ' r eid
  ∧ entitySparseSet w' = entitySparseSet w ∖ {[eid]}
  ∧ entityComponents w' = delete eid (entityComponents w)
  ∧ entityComponents w' !! eid = None
  ∧ localEntityLookup w' !! eid = None
  ∧ (∀ lid, localEntityLookup w !! eid = Some lid → localEntities w' !! lid = None)
  ∧ length (entityMasks w') = length (entityMasks w)
  ∧ (∀ i row, entityMasks w' !! i = Some row → row !! eid = Some 0).
Proof.
  intros Hl w σ' w'.
  assert (w' = leaveWorld eid w) as Hw'.
  { subst w' σ'. rewrite (removeEntity_present _ _ _ Hl). simpl.
    apply fn_lookup_insert. }
  destruct (leaveWorld_fields eid w) as (Hs & Hc & Hm & Hle & Hll).
  rewrite Hw', Hs, Hc, Hm, Hle, Hll. split_and!.
  - subst σ'. by rewrite (removeEntity_present _ _ _ Hl).
  - subst σ'. rewrite removeEntity_liveness. naive_solver.
  - done.
  - done.
  - apply lookup_delete_eq.
  - apply lookup_delete_eq.
  - intros lid Hlid. unfold forgetLocal. rewrite Hlid. apply lookup_delete_eq.
  - unfold clearMasks. apply length_fmap.
  - intros i row. unfold clearMasks. rewrite list_lookup_fmap.
    destruct (entityMasks w !! i) as [row0|]; simpl; [|done].
    intros [= <-]. apply lookup_insert_eq.
Qed.

(** C7.  When the id is not live in the world, [removeEntity] returns with
    the whole state unchanged; hence two calls in a row leave the same
    state as one. *)
Theorem removeEntity_idempotent `{Collaborators} (σ : state) r eid :
  (¬ live σ r eid → removeEntity σ r eid = σ)
  ∧ removeEntity (removeEntity σ r eid) r eid = removeEntity σ r eid.
Proof.
  split; [apply removeEntity_absent|].
  apply removeEntity_absent. rewrite removeEntity_liveness. naive_solver.
Qed.

Lemma removeEntity_eidToWorld_frame `{Collaborators} (σ : state) r eid :
  eidToWorld (removeEntity σ r eid) = eidToWorld σ.
Proof. apply removeEntity_globals. Qed.

Lemma removeEntity_tagged `{Collaborators} (σ : state) r eid :
  (∀ r0, tagged (worlds σ r0)) → ∀ r0, tagged (worlds (removeEntity σ r eid) r0).
Proof.
  intros Ht r0 e0 He0.
  destruct (decide (eid ∈ entitySparseSet (worlds σ r))) as [Hl|Hn];
    fold (live σ r eid) in *.
  - pose proof (proj1 (removeEntity_liveness σ r eid r0 e0) He0) as (Hl0 & Hne).
    rewrite (removeEntity_present _ _ _ Hl). simpl.
    destruct (decide (r0 = r)) as [->|Hr].
    + rewrite fn_lookup_insert.
      destruct (leaveWorld_fields eid (worlds σ r)) as (_ & -> & _).
      rewrite lookup_delete_ne by naive_solver. by apply Ht.
    + rewrite fn_lookup_insert_ne by done. by apply Ht.
  - rewrite (removeEntity_absent _ _ _ Hn) in *. by apply Ht.
Qed.

(** ** getEntityComponents, entityExists *)

(** C8.  [getEntityComponents] throws the "entity is undefined" error
    exactly when the id argument is undefined, throws the "entity does not
    exist in the world" error exactly when the id is defined but not in
    the world's sparse set, and otherwise returns the entity's tag set as
    a sequence (every live id has a tag set in a world kept by [addEntity]
    and [removeEntity]). *)
Theorem getEntityComponents_outcomes `{Collaborators} (w : world) (eid : option Z) :
  (getEntityComponents w eid = Throw InvalidEntity ↔ eid = None)
  ∧ (getEntityComponents w eid = Throw EntityNotFound
     ↔ ∃ e, eid = Some e ∧ e ∉ entitySparseSet w)
  ∧ (tagged w → ∀ e, eid = Some e → e ∈ entitySparseSet w →
     ∃ tags, entityComponents w !! e = Some tags
             ∧ getEntityComponents w eid = Return tags).
Proof.
  unfold getEntityComponents, sparse_has. split_and!.
  - destruct eid as [e|]; [|done]. split; [|done].
    case_bool_decide; simpl; [|done]. by destruct (entityComponents w !! e).
  - destruct eid as [e|].
    + case_bool_decide as He; simpl.
      * split; [by destruct (entityComponents w !! e)|].
        intros (e' & [= <-] & Hn). done.
      * split; [|done]. intros _. by exists e.
    + split; [done|]. by intros (e & ? & _).
  - intros Ht e -> He. destruct (Ht e He) as (tags & Htags).
    exists tags. split; [done|].
    rewrite bool_decide_true by done. simpl. by rewrite Htags.
Qed.

(** C9 (the source departs from it).  [entityExists] evaluates the
    membership test and drops the result: the call yields [undefined] for
    every world and id, in particular for the id that [addEntity] has just
    made live in a newly created world, where the membership test itself
    is true. *)
Theorem entityExists_drops_result `{Collaborators} :
  (∀ (w : world) eid, entityExists w eid = undefined)
  ∧ ∀ qs nqs rows st r,
      ∃ σ', addEntity (freshState qs nqs rows st) r = Some (0, σ')
            ∧ sparse_has (entitySparseSet (worlds σ' r)) 0 = true
            ∧ entityExists (worlds σ' r) 0 = undefined
            ∧ entityExists (worlds σ' r) 0 ≠ boolean true.
Proof.
  split; [done|]. intros qs nqs rows st r.
  eexists. split.
  - apply (addEntity_fresh (freshState qs nqs rows st) r).
    + apply storesFull_false. unfold freshState, moduleLoad, initialDefaultSize.
      simpl. lia.
    + apply reuseDue_empty; unfold freshState, moduleLoad, initialDefaultSize;
        simpl; [done|lia|done].
  - simpl. rewrite fn_lookup_insert. split_and!; [|done..].
    unfold sparse_has. apply bool_decide_eq_true.
    rewrite enterWorld_sparse. set_solver.
Qed.

(** ** Capacity *)

Lemma reuseDue_nonempty `{Collaborators} (σ : state) :
  0 ≤ defaultSize σ → (0 <= removedReuseThreshold σ)%Q → reuseDue σ = true →
  ∃ eid rest, removed σ = eid :: rest.
Proof.
  intros Hd Ht Hr. destruct (removed σ) as [|e rest] eqn:Hp; [|by eauto].
  rewrite reuseDue_empty in Hr; done.
Qed.

(** One call from a sane configuration returns, keeps the configuration
    sane, does not shrink the capacity and leaves the cursor within it. *)
Lemma addEntity_capacity `{Collaborators} (σ : state) r :
  sane σ →
  ∃ eid σ', addEntity σ r = Some (eid, σ')
            ∧ sane σ'
            ∧ globalSize σ ≤ globalSize σ'
            ∧ globalEntityCursor σ' ≤ globalSize σ'.
Proof.
  intros (Hs & Hd & Ht). destruct (storesFull σ) eqn:Hf.
  - destruct (addEntity_grown σ r Hf) as (σ' & Ha & Hc' & Hs' & Hd' & _ & Ht');
      [lia|].
    pose proof (growth_amount_nonneg (globalSize σ)).
    exists 0, σ'. unfold sane. rewrite Hc', Hs', Hd', Ht'.
    split_and!; try done; lia.
  - apply storesFull_false in Hf as Hlt.
    destruct (reuseDue σ) eqn:Hr.
    + destruct (reuseDue_nonempty σ Hd Ht Hr) as (e & rest & Hp).
      eexists _, _. split; [by apply addEntity_reuse|].
      unfold sane. simpl. split_and!; try done; lia.
    + eexists _, _. split; [by apply addEntity_fresh|].
      unfold sane. simpl. split_and!; try done; lia.
Qed.

Lemma addEntities_capacity `{Collaborators} rs : ∀ σ : state,
  sane σ →
  ∃ ids σ', addEntities σ rs = Some (ids, σ')
            ∧ sane σ'
            ∧ globalSize σ ≤ globalSize σ'
            ∧ (globalEntityCursor σ ≤ globalSize σ ∨ rs ≠ [] →
               globalEntityCursor σ' ≤ globalSize σ').
Proof.
  induction rs as [|r rs IH]; intros σ Hsane.
  - exists [], σ. split_and!; try done. intros [?|?]; done.
  - destruct (addEntity_capacity σ r Hsane) as (e & σ1 & Ha & Hsane1 & Hs1 & Hc1).
    destruct (IH σ1 Hsane1) as (ids & σ' & Hr & Hsane' & Hs' & Hc').
    exists (e :: ids), σ'. simpl. rewrite Ha. simpl. rewrite Hr. simpl.
    split_and!; try done; [lia|]. intros _. apply Hc'. by left.
Qed.

(** C5.  Along every sequence of [addEntity] calls, [globalSize] never
    decreases, and after every call has returned [globalEntityCursor] does
    not exceed [globalSize]: split the sequence at any point ([rs1] the
    calls made so far, [rs2] the calls still to come); every call returns,
    the capacity after [rs1] is at least the initial one and at most the
    final one, and once at least one call has been made the cursor is
    within the capacity. *)
Theorem capacity_monotone `{Collaborators} (σ : state) rs1 rs2 :
  sane σ →
  ∃ ids1 σ1 ids2 σ2,
    addEntities σ rs1 = Some (ids1, σ1)
    ∧ addEntities σ (rs1 ++ rs2) = Some (ids1 ++ ids2, σ2)
    ∧ globalSize σ ≤ globalSize σ1
    ∧ globalSize σ1 ≤ globalSize σ2
    ∧ (rs1 ≠ [] → globalEntityCursor σ1 ≤ globalSize σ1).
Proof.
  intros Hsane.
  destruct (addEntities_capacity rs1 σ Hsane) as (ids1 & σ1 & Hr1 & Hsane1 & Hs1 & Hc1).
  destruct (addEntities_capacity rs2 σ1 Hsane1) as (ids2 & σ2 & Hr2 & _ & Hs2 & _).
  exists ids1, σ1, ids2, σ2. rewrite addEntities_app, Hr1. simpl. rewrite Hr2. simpl.
  split_and!; try done. intros Hne. apply Hc1. by right.
Qed.

(** ** The first 80000 calls from a fresh state, and the call after them *)

Lemma freshState_reuseDue `{Collaborators} qs nqs rows st :
  reuseDue (freshState qs nqs rows st) = false.
Proof.
  apply reuseDue_empty; unfold freshState, moduleLoad, initialDefaultSize;
    simpl; [done|lia|done].
Qed.

(** Up to 80000 calls: the ids are 0, 1, 2, ... and nothing is resized. *)
Lemma fresh_run `{Collaborators} qs nqs rows st rs :
  (length rs ≤ Z.to_nat 80000)%nat →
  ∃ σ1, addEntities (freshState qs nqs rows st) rs
        = Some (seqZ 0 (Z.of_nat (length rs)), σ1)
        ∧ globalEntityCursor σ1 = Z.of_nat (length rs)
        ∧ globalSize σ1 = 100000
        ∧ defaultSize σ1 = 100000
        ∧ removedReuseThreshold σ1 = defaultRemovedReuseThreshold
        ∧ removed σ1 = [].
Proof.
  intros Hn.
  destruct (addEntities_fresh rs (freshState qs nqs rows st))
    as (σ1 & Hr & Hc & Hs & Hd & Ht & Hp).
  - apply freshState_reuseDue.
  - unfold freshState, moduleLoad, initialDefaultSize. simpl. lia.
  - exists σ1. split; [exact Hr|]. split; [exact Hc|]. split; [exact Hs|].
    split; [exact Hd|]. split; [exact Ht|]. exact Hp.
Qed.

(** The call that follows 80000 fresh ones: the growth check fires, the
    capacity becomes 150000, and the id returned is 0 again. *)
Lemma growth_run `{Collaborators} qs nqs rows st rs r' :
  length rs = Z.to_nat 80000 →
  ∃ σ1 σ',
    addEntities (freshState qs nqs rows st) rs = Some (seqZ 0 80000, σ1)
    ∧ globalSize σ1 = 100000
    ∧ globalEntityCursor σ1 = 80000
    ∧ addEntity σ1 r' = Some (0, σ')
    ∧ addEntities (freshState qs nqs rows st) (rs ++ [r'])
      = Some (seqZ 0 80000 ++ [0], σ')
    ∧ globalSize σ' = 150000
    ∧ globalEntityCursor σ' = 1
    ∧ removed σ' = [].
Proof.
  intros Hn.
  destruct (fresh_run qs nqs rows st rs) as (σ1 & Hr & Hc & Hs & Hd & Ht & Hp); [lia|].
  rewrite Hn in Hr, Hc. rewrite Z2Nat.id in Hr, Hc by lia.
  assert (storesFull σ1 = true) as Hf by (apply storesFull_scaled; lia).
  destruct (addEntity_grown σ1 r' Hf) as (σ' & Ha & Hc' & Hs' & Hd' & Hp' & Ht'); [lia|].
  rewrite Hs in Hs'.
  exists σ1, σ'. split_and!; [exact Hr | exact Hs | exact Hc | exact Ha | | | exact Hc' | exact Hp'].
  - exact (addEntities_snoc _ _ _ _ _ _ _ Hr Ha).
  - rewrite Hs'. reflexivity.
Qed.

(** C4.  The growth check of [addEntity] fires exactly when the cursor is
    at least the capacity minus the integer quotient of the capacity by 5;
    when it does not fire the capacity is left alone; when it fires the
    capacity grows by [ceil(capacity/2/4)*4] and the id is chosen in the
    grown state.  From a fresh state with capacity 100000 the first 80000
    calls do not resize, and the 80001st brings the capacity to 150000,
    which is at least [100000 + ceil(50000/4)*4]. *)
Theorem addEntity_growth `{Collaborators} :
  (∀ σ : state,
     storesFull σ = true ↔ globalSize σ - globalSize σ / 5 ≤ globalEntityCursor σ)
  ∧ (∀ (σ : state) r eid σ',
       storesFull σ = false → addEntity σ r = Some (eid, σ') →
       globalSize σ' = globalSize σ)
  ∧ (∀ (σ : state) r,
       storesFull σ = true → 0 ≤ globalSize σ →
       let delta := Math_ceil (inject_Z (globalSize σ) / 2 / 4)%Q * 4 in
       delta = (globalSize σ + 7) / 8 * 4
       ∧ ∃ eid σ1 σ',
           nextEid (setDefaultSize (globalSize σ + delta) σ) = Some (eid, σ1)
           ∧ addEntity σ r = Some (eid, σ')
           ∧ globalSize σ' = globalSize σ + delta)
  ∧ (∀ qs nqs rows st rs,
       (length rs ≤ Z.to_nat 80000)%nat →
       ∃ ids σ1,
         addEntities (freshState qs nqs rows st) rs = Some (ids, σ1)
         ∧ globalSize σ1 = 100000
         ∧ (length rs = Z.to_nat 80000 →
            ∀ r, ∃ eid σ',
              addEntity σ1 r = Some (eid, σ')
              ∧ globalSize σ' = 150000
              ∧ 100000 + Math_ceil (50000 / 4)%Q * 4 ≤ globalSize σ')).
Proof.
  split_and!.
  - apply @storesFull_floor.
  - intros σ r eid σ' Hf (σ1 & Hn & _ & _ & -> & _)%addEntity_inv.
    apply nextEid_inv in Hn as (_ & -> & _). by rewrite growIfFull_idle.
  - intros σ r Hf Hs delta. split; [apply growth_amount|].
    destruct (addEntity_grown σ r Hf Hs) as (σ' & Ha & _ & Hs' & _).
    pose proof Ha as (σ1 & Hn & _)%addEntity_inv.
    rewrite (growIfFull_full _ Hf) in Hn. by exists 0, σ1, σ'.
  - intros qs nqs rows st rs Hn.
    destruct (fresh_run qs nqs rows st rs Hn) as (σ1 & Hr & _ & Hs & _).
    eexists _, σ1. split; [exact Hr|]. split; [exact Hs|]. intros Hlen r.
    destruct (growth_run qs nqs rows st rs r Hlen)
      as (σ1' & σ' & Hr' & _ & _ & Ha & _ & Hs' & _).
    assert (σ1' = σ1) as -> by congruence.
    exists 0, σ'. split; [exact Ha|]. split; [exact Hs'|].
    rewrite Hs'. vm_compute. discriminate.
Qed.

(** ** What the reset inside the growth step does to ids *)

(** C1 (the source departs from it).  80001 calls of [addEntity] from a
    fresh state, with no [removeEntity] in between: the recycle pool is
    empty before and after every call, so no id is ever taken from it, and
    yet the ids are 0, 1, ..., 79999 and then 0 again.  The last id is
    smaller than the one before it and equal to the first, so the ids are
    neither increasing nor pairwise distinct. *)
Theorem addEntity_repeats_id_after_growth `{Collaborators} qs nqs rows st r r' :
  let rs := replicate (Z.to_nat 80000) r ++ [r'] in
  (∀ k, ∃ idsk σk,
      addEntities (freshState qs nqs rows st) (take k rs) = Some (idsk, σk)
      ∧ removed σk = [])
  ∧ ∃ ids σ',
      addEntities (freshState qs nqs rows st) rs = Some (ids, σ')
      ∧ ids = seqZ 0 80000 ++ [0]
      ∧ ids !! Z.to_nat 0 = Some 0
      ∧ ids !! Z.to_nat 79999 = Some 79999
      ∧ ids !! Z.to_nat 80000 = Some 0
      ∧ ¬ NoDup ids.
Proof.
  intros rs.
  destruct (growth_run qs nqs rows st (replicate (Z.to_nat 80000) r) r')
    as (σ1 & σ' & _ & _ & _ & _ & Hr & _ & _ & Hp); [apply length_replicate|].
  fold rs in Hr. split.
  - intros k. destruct (Nat.le_gt_cases k (Z.to_nat 80000)) as [Hk|Hk].
    + subst rs. rewrite take_app_le by (rewrite length_replicate; exact Hk).
      rewrite take_replicate.
      destruct (fresh_run qs nqs rows st (replicate (k `min` Z.to_nat 80000) r))
        as (σk & Hrk & _ & _ & _ & _ & Hpk); [rewrite length_replicate; lia|].
      eexists _, σk. split; [exact Hrk | exact Hpk].
    + rewrite take_ge
        by (subst rs; rewrite length_app, length_replicate;
            change (length [r']) with 1%nat; lia).
      eexists _, σ'. split; [exact Hr | exact Hp].
  - assert ((seqZ 0 80000 ++ [0]) !! Z.to_nat 0 = Some 0) as H0.
    { rewrite lookup_app_l by (rewrite length_seqZ; lia).
      apply lookup_seqZ. lia. }
    assert ((seqZ 0 80000 ++ [0]) !! Z.to_nat 79999 = Some 79999) as H1.
    { rewrite lookup_app_l by (rewrite length_seqZ; lia).
      apply lookup_seqZ. lia. }
    assert ((seqZ 0 80000 ++ [0]) !! Z.to_nat 80000 = Some 0) as H2.
    { rewrite lookup_app_r by (rewrite length_seqZ; lia).
      rewrite length_seqZ, Nat.sub_diag. reflexivity. }
    exists (seqZ 0 80000 ++ [0]), σ'.
    split; [exact Hr|]. split; [reflexivity|].
    split; [exact H0|]. split; [exact H1|]. split; [exact H2|].
    intros Hnd. pose proof (NoDup_lookup _ _ _ _ Hnd H0 H2). lia.
Qed.

(** C2 (the source departs from it).  80000 calls of [addEntity] on world
    0 followed by one call on world 1, from a fresh state: id 0 is then
    live in both worlds at once, and [eidToWorld] names world 1 for it
    although world 0 still holds it. *)
Theorem id_live_in_two_worlds `{Collaborators} qs nqs rows st :
  ∃ ids σ',
    addEntities (freshState qs nqs rows st)
                (replicate (Z.to_nat 80000) 0%nat ++ [1%nat])
    = Some (ids, σ')
    ∧ live σ' 0%nat 0
    ∧ live σ' 1%nat 0
    ∧ eidToWorld σ' !! 0 = Some 1%nat.
Proof.
  destruct (growth_run qs nqs rows st (replicate (Z.to_nat 80000) 0%nat) 1%nat)
    as (σ1 & σ' & Hr1 & _ & _ & Ha & Hr & _); [apply length_replicate|].
  exists (seqZ 0 80000 ++ [0]), σ'. split; [exact Hr|]. split_and!.
  - apply (proj2 (addEntity_live _ _ _ _ 0%nat 0 Ha)). left.
    apply (addEntities_live_ids _ _ _ _ (Z.to_nat 0) 0%nat 0 Hr1).
    + apply lookup_replicate_2. lia.
    + apply lookup_seqZ. lia.
  - apply (proj2 (addEntity_live _ _ _ _ 1%nat 0 Ha)). right. split; reflexivity.
  - exact (addEntity_owner _ _ _ _ Ha).
Qed.

(** C3 (the source departs from it).  With the default threshold 0.01 and
    default size 100000: after 80000 calls of [addEntity] on a world and
    the removal of the 1500 ids 1, ..., 1500 in this order, the pool holds
    1500 ids, more than [round(100000 * 0.01) = 1000], with id 1 the
    oldest; the next [addEntity] returns 0, which is neither the oldest
    pooled id nor a fresh cursor value (0 is still live in the world). *)
Theorem growth_discards_pool `{Collaborators} qs nqs rows st r r' :
  ∃ ids σ1 σ',
    addEntities (freshState qs nqs rows st) (replicate (Z.to_nat 80000) r)
    = Some (ids, σ1)
    ∧ let σ2 := removeEntities σ1 r (seqZ 1 1500) in
      removed σ2 = seqZ 1 1500
      ∧ head (removed σ2) = Some 1
      ∧ Z.of_nat (length (removed σ2)) = 1500
      ∧ defaultSize σ2 = 100000
      ∧ removedReuseThreshold σ2 = (1 # 100)%Q
      ∧ Math_round (inject_Z (defaultSize σ2) * removedReuseThreshold σ2)%Q = 1000
      ∧ reuseDue σ2 = true
      ∧ globalEntityCursor σ2 = 80000
      ∧ live σ2 r 0
      ∧ addEntity σ2 r' = Some (0, σ').
Proof.
  destruct (fresh_run qs nqs rows st (replicate (Z.to_nat 80000) r))
    as (σ1 & Hr & Hc & Hs & Hd & Ht & Hp); [by rewrite length_replicate|].
  rewrite length_replicate, Z2Nat.id in Hr, Hc by lia.
  assert (∀ e, 0 ≤ e < 80000 → live σ1 r e) as Hlive.
  { intros e He.
    apply (addEntities_live_ids _ _ _ _ (Z.to_nat e) r e Hr).
    - apply lookup_replicate_2. lia.
    - apply lookup_seqZ. lia. }
  destruct (removeEntities_pool r (seqZ 1 1500) σ1)
    as (Hp2 & Hd2 & Hc2 & Hs2 & Ht2 & Hl2).
  { apply NoDup_seqZ. }
  { intros e He%elem_of_seqZ. apply Hlive. lia. }
  exists (seqZ 0 80000), σ1. cbv zeta.
  revert Hp2 Hd2 Hc2 Hs2 Ht2 Hl2.
  generalize (removeEntities σ1 r (seqZ 1 1500)). intros σ2 Hp2 Hd2 Hc2 Hs2 Ht2 Hl2.
  rewrite Hp, app_nil_l in Hp2.
  assert (storesFull σ2 = true) as Hf by (apply storesFull_scaled; lia).
  destruct (addEntity_grown σ2 r' Hf) as (σ' & Ha & _); [lia|].
  exists σ'. split; [exact Hr|].
  assert (Z.of_nat (length (removed σ2)) = 1500) as Hlen.
  { rewrite Hp2, length_seqZ. lia. }
  assert (Math_round (inject_Z (defaultSize σ2) * removedReuseThreshold σ2)%Q = 1000)
    as Hround.
  { rewrite Hd2, Ht2, Hd, Ht. vm_compute. reflexivity. }
  split; [exact Hp2|].
  split; [rewrite Hp2, seqZ_cons by lia; reflexivity|].
  split; [exact Hlen|].
  split; [congruence|].
  split; [rewrite Ht2, Ht; reflexivity|].
  split; [exact Hround|].
  split; [unfold reuseDue; rewrite Hlen, Hround; reflexivity|].
  split; [congruence|].
  split; [|exact Ha].
  apply Hl2. split; [apply Hlive; lia|].
  intros (_ & Hin%elem_of_seqZ). lia.
Qed.

(** C10 (the source departs from it).  [removeEntity] itself never writes
    [eidToWorld] ([removeEntity_eidToWorld_frame]), but the entry it leaves
    behind need not name the world the id was removed from: after 80000
    calls of [addEntity] on world 0 and one on world 1, id 0 is live in
    world 0 while [eidToWorld] maps it to world 1; removing it from world 0
    leaves the map as it was, with id 0 still mapped to world 1. *)
Theorem removeEntity_entry_names_other_world `{Collaborators} qs nqs rows st :
  ∃ ids σ,
    addEntities (freshState qs nqs rows st)
                (replicate (Z.to_nat 80000) 0%nat ++ [1%nat])
    = Some (ids, σ)
    ∧ live σ 0%nat 0
    ∧ eidToWorld (removeEntity σ 0%nat 0) = eidToWorld σ
    ∧ eidToWorld (removeEntity σ 0%nat 0) !! 0 = Some 1%nat
    ∧ eidToWorld (removeEntity σ 0%nat 0) !! 0 ≠ Some 0%nat
    ∧ ¬ live (removeEntity σ 0%nat 0) 0%nat 0.
Proof.
  destruct (growth_run qs nqs rows st (replicate (Z.to_nat 80000) 0%nat) 1%nat)
    as (σ1 & σ & Hr1 & _ & _ & Ha & Hr & _); [apply length_replicate|].
  assert (live σ 0%nat 0) as Hl.
  { apply (proj2 (addEntity_live _ _ _ _ 0%nat 0 Ha)). left.
    apply (addEntities_live_ids _ _ _ _ (Z.to_nat 0) 0%nat 0 Hr1).
    - apply lookup_replicate_2. lia.
    - apply lookup_seqZ. lia. }
  exists (seqZ 0 80000 ++ [0]), σ.
  pose proof (addEntity_owner _ _ _ _ Ha) as Ho.
  rewrite removeEntity_eidToWorld_frame.
  split; [exact Hr|]. split; [exact Hl|]. split; [reflexivity|].
  split; [exact Ho|].
  split; [intros Hc; discriminate (eq_trans (eq_sym Ho) Hc)|].
  rewrite removeEntity_liveness. intros (_ & Hn). apply Hn. split; reflexivity.
Qed.

(** ** The bookkeeping holds as long as the growth step stays silent *)

Lemma consistent_freshState `{Collaborators} qs nqs rows st :
  consistent (freshState qs nqs rows st).
Proof.
  unfold consistent, live, freshState, moduleLoad. simpl. split_and!.
  - intros r e He. by apply not_elem_of_empty in He.
  - intros r e He. by apply not_elem_of_empty in He.
  - intros e He. by apply elem_of_nil in He.
  - constructor.
Qed.

Lemma consistent_one_world `{Collaborators} (σ : state) r1 r2 eid :
  consistent σ → live σ r1 eid → live σ r2 eid → r1 = r2.
Proof.
  intros (Hown & _) H1 H2. apply Hown in H1, H2. congruence.
Qed.

Lemma consistent_removeEntity `{Collaborators} (σ : state) r eid :
  consistent σ → consistent (removeEntity σ r eid).
Proof.
  intros (Hown & Hlive & Hpool & Hnd).
  destruct (decide (eid ∈ entitySparseSet (worlds σ r))) as [Hl|Hn];
    fold (live σ r eid) in *.
  - destruct (removeEntity_globals σ r eid) as (_ & Hc & _ & _ & He).
    unfold consistent. rewrite Hc, He.
    assert (removed (removeEntity σ r eid) = removed σ ++ [eid]) as ->
      by (by rewrite (removeEntity_present _ _ _ Hl)).
    destruct (Hlive r eid Hl) as (Hlt & Hnp). split_and!.
    + intros r0 e0 (Hl0 & _)%removeEntity_liveness. by apply Hown.
    + intros r0 e0 (Hl0 & Hne)%removeEntity_liveness.
      destruct (Hlive r0 e0 Hl0) as (Hlt0 & Hnp0). split; [done|].
      rewrite elem_of_app, list_elem_of_singleton. intros [Hin| ->]; [done|].
      apply Hne. split; [|done]. by apply (consistent_one_world σ r0 r eid).
    + intros e0. rewrite elem_of_app, list_elem_of_singleton.
      intros [Hin| ->]; [by apply Hpool | done].
    + apply list.NoDup_app. split_and!; [done| |apply list.NoDup_singleton].
      intros e0 Hin ->%list_elem_of_singleton. done.
  - by rewrite (removeEntity_absent _ _ _ Hn).
Qed.

Lemma consistent_addEntity `{Collaborators} (σ σ' : state) r eid :
  storesFull σ = false → consistent σ → addEntity σ r = Some (eid, σ') →
  consistent σ'.
Proof.
  intros Hf (Hown & Hlive & Hpool & Hnd) Ha.
  pose proof (λ r0 e0, addEntity_live _ _ _ _ r0 e0 Ha) as Hlv.
  apply addEntity_inv in Ha as (σ1 & Hn & _ & Hc & _ & Hp & _ & He & _).
  rewrite (growIfFull_idle _ Hf) in Hn.
  apply nextEid_inv in Hn as (_ & _ & _ & He1 & _ & Hcase).
  unfold consistent. rewrite Hc, Hp, He, He1. clear Hc Hp He He1.
  destruct Hcase as [(_ & Hpool1 & ->) | (_ & -> & -> & ->)].
  - rewrite Hpool1 in *. apply list.NoDup_cons in Hnd as (Hnin & Hnd).
    split_and!.
    + intros r0 e0 [Hl0 | (-> & ->)]%Hlv; [|apply lookup_insert_eq].
      rewrite lookup_insert_ne; [by apply Hown|].
      intros <-. destruct (Hlive r0 eid Hl0) as (_ & Hnp). apply Hnp. by left.
    + intros r0 e0 [Hl0 | (-> & ->)]%Hlv.
      * destruct (Hlive r0 e0 Hl0) as (Hlt0 & Hnp0). split; [done|].
        intros Hin. apply Hnp0. by right.
      * split; [|done]. apply Hpool. by left.
    + intros e0 Hin. apply Hpool. by right.
    + done.
  - split_and!.
    + intros r0 e0 [Hl0 | (-> & ->)]%Hlv; [|apply lookup_insert_eq].
      rewrite lookup_insert_ne; [by apply Hown|].
      intros <-. destruct (Hlive r0 _ Hl0) as (Hlt0 & _). lia.
    + intros r0 e0 [Hl0 | (-> & ->)]%Hlv.
      * destruct (Hlive r0 e0 Hl0) as (Hlt0 & Hnp0). split; [lia|done].
      * split; [lia|]. intros Hin%Hpool. lia.
    + intros e0 Hin%Hpool. lia.
    + done.
Qed.

(** ** Small runs *)

(** At capacity 5 the growth check fires on the fifth call (cursor 4, bound
    5 - 5/5 = 4): the capacity becomes 5 + ceil(5/8)*4 = 9 and the ids
    start over. *)
Example small_capacity_ids :
  fst <$> addEntities (H := idle) smallState (replicate 5 0%nat)
  = Some [0; 1; 2; 3; 0].
Proof. vm_compute. reflexivity. Qed.

Example small_capacity_size :
  (globalSize ∘ snd) <$> addEntities (H := idle) smallState (replicate 5 0%nat)
  = Some 9.
Proof. vm_compute. reflexivity. Qed.

(** With the reuse threshold set to 0 and no growth in sight, removed ids
    come back oldest first and the cursor takes over when the pool is
    empty. *)
Example fifo_reuse :
  (λ σ, fst <$> addEntities (H := idle)
                  (removeEntities (setRemovedRecycleThreshold 0 σ) 0%nat [8; 7])
                  [1%nat; 1%nat; 1%nat])
  <$> (snd <$> addEntities (H := idle) demoState [0%nat; 0%nat])
  = Some (Some [8; 7; 10]).
Proof. vm_compute. reflexivity. Qed.

(** ** Instances of the conditional statements *)

Lemma demoState_live : live (H := idle) demoState 0%nat 7.
Proof. unfold live. apply (bool_decide_unpack _). vm_compute. exact I. Defined.

Lemma demoState_absent : ¬ live (H := idle) demoState 1%nat 7.
Proof. unfold live. apply (bool_decide_unpack _). vm_compute. exact I. Defined.

Lemma demoState_sane : sane (H := idle) demoState.
Proof. unfold sane. simpl. split_and!; [lia | lia | discriminate]. Defined.

Lemma removeEntity_effects_witness :
  live (H := idle) demoState 0%nat 7
  ∧ removed (removeEntity (H := idle) demoState 0%nat 7) = [7]
  ∧ entityMasks (worlds (removeEntity (H := idle) demoState 0%nat 7) 0%nat)
    = [{[7 := 0]}; {[7 := 0]}].
Proof.
  split; [exact demoState_live|].
  destruct (removeEntity_effects (H := idle) demoState 0%nat 7 demoState_live)
    as (Hp & _).
  split; [exact Hp|]. vm_compute. reflexivity.
Defined.

Lemma removeEntity_idempotent_witness :
  ¬ live (H := idle) demoState 1%nat 7
  ∧ removeEntity (H := idle) demoState 1%nat 7 = demoState.
Proof.
  split; [exact demoState_absent|].
  exact (proj1 (removeEntity_idempotent (H := idle) demoState 1%nat 7) demoState_absent).
Defined.

Lemma getEntityComponents_outcomes_witness :
  tagged (H := idle) demoWorld
  ∧ 7 ∈ entitySparseSet demoWorld
  ∧ getEntityComponents (H := idle) demoWorld (Some 7) = Return [tt].
Proof.
  assert (tagged (H := idle) demoWorld) as Ht.
  { intros e He. unfold demoWorld in *. simpl in *.
    apply elem_of_singleton in He as ->. rewrite lookup_singleton_eq. by eexists. }
  assert (7 ∈ entitySparseSet demoWorld) as Hin.
  { apply (bool_decide_unpack _). vm_compute. exact I. }
  split; [exact Ht|]. split; [exact Hin|].
  destruct (getEntityComponents_outcomes (H := idle) demoWorld (Some 7)) as (_ & _ & Hret).
  destruct (Hret Ht 7 eq_refl Hin) as (tags & Hlk & Hg).
  rewrite Hg. f_equal. unfold demoWorld in Hlk. simpl in Hlk.
  rewrite lookup_singleton_eq in Hlk. symmetry. by injection Hlk.
Defined.

Lemma capacity_monotone_witness :
  sane (H := idle) demoState
  ∧ ∃ ids σ1, addEntities (H := idle) demoState [0%nat; 1%nat] = Some (ids, σ1)
              ∧ globalSize demoState ≤ globalSize σ1
              ∧ globalEntityCursor σ1 ≤ globalSize σ1.
Proof.
  split; [exact demoState_sane|].
  destruct (capacity_monotone (H := idle) demoState [0%nat; 1%nat] [] demoState_sane)
    as (ids1 & σ1 & _ & _ & Hr & _ & Hs & _ & Hc).
  exists ids1, σ1. split; [exact Hr|]. split; [exact Hs|]. apply Hc. discriminate.
Defined.

Lemma addEntity_growth_witness :
  storesFull (H := idle) fullState = true
  ∧ 0 ≤ globalSize fullState
  ∧ ∃ eid σ', addEntity (H := idle) fullState 0%nat = Some (eid, σ')
              ∧ globalSize σ' = 150000.
Proof.
  assert (storesFull (H := idle) fullState = true) as Hf by (vm_compute; reflexivity).
  assert (0 ≤ globalSize fullState) as Hs by (simpl; lia).
  split; [exact Hf|]. split; [exact Hs|].
  destruct (addEntity_growth (H := idle)) as (_ & _ & Hgrow & _).
  destruct (Hgrow fullState 0%nat Hf Hs) as (_ & eid & σ1 & σ' & _ & Ha & Hs').
  exists eid, σ'. split; [exact Ha|]. rewrite Hs'. vm_compute. reflexivity.
Defined.

(** * Further properties of the module *)

(** ** setDefaultSize and the threshold *)

Lemma setDefaultSize_live `{Collaborators} (σ : state) n r eid :
  live (setDefaultSize n σ) r eid ↔ live σ r eid.
Proof. reflexivity. Qed.

(** X1.  [setDefaultSize(n)] with a positive [n] restarts the allocator but
    not the worlds: the next [addEntity] returns id 0 at capacity [n], and
    every id that was live before the resize is still live after it, id 0
    included. *)
Theorem setDefaultSize_restarts_ids `{Collaborators} (σ : state) n r :
  0 < n →
  ∃ σ', addEntity (setDefaultSize n σ) r = Some (0, σ')
        ∧ globalSize σ' = n
        ∧ defaultSize σ' = n
        ∧ globalEntityCursor σ' = 1
        ∧ removed σ' = []
        ∧ (∀ r0 e0, live σ r0 e0 → live σ' r0 e0).
Proof.
  intros Hn.
  assert (storesFull (setDefaultSize n σ) = false) as Hf.
  { apply storesFull_false. simpl. lia. }
  assert (reuseDue (setDefaultSize n σ) = false) as Hr.
  { apply reuseDue_empty; simpl; [done|lia|done]. }
  pose proof (addEntity_fresh _ r Hf Hr) as Ha.
  eexists. split; [exact Ha|]. simpl. split_and!; try done.
  intros r0 e0 Hl. apply (proj2 (addEntity_live _ _ _ _ r0 e0 Ha)). left.
  by apply setDefaultSize_live.
Qed.

(** X2.  A reuse threshold set through [setRemovedRecycleThreshold] lasts
    until the next capacity growth: a call of [addEntity] that does not
    grow leaves it alone, a call that grows puts the default 0.01 back. *)
Theorem addEntity_threshold `{Collaborators} (σ σ' : state) t r eid :
  addEntity (setRemovedRecycleThreshold t σ) r = Some (eid, σ') →
  removedReuseThreshold σ'
  = if storesFull σ then defaultRemovedReuseThreshold else t.
Proof.
  intros (σ1 & Hn & _ & _ & _ & _ & -> & _)%addEntity_inv.
  apply nextEid_inv in Hn as (_ & _ & -> & _).
  unfold growIfFull.
  change (storesFull (setRemovedRecycleThreshold t σ)) with (storesFull σ).
  by destruct (storesFull σ).
Qed.

(** ** addEntity followed by a read or a removal *)

(** X3.  The id returned by [addEntity] is live in the world and starts
    with an empty component set, whatever the id held before:
    [getEntityComponents] on it returns the empty array. *)
Theorem addEntity_then_getEntityComponents `{Collaborators} (σ σ' : state) r eid :
  addEntity σ r = Some (eid, σ') →
  live σ' r eid
  ∧ getEntityComponents (worlds σ' r) (Some eid) = Return [].
Proof.
  intros Ha.
  assert (live σ' r eid) as Hl
    by (apply (proj2 (addEntity_live _ _ _ _ r eid Ha)); by right).
  split; [exact Hl|].
  unfold getEntityComponents.
  rewrite (proj2 (sparse_has_live σ' r eid) Hl). simpl.
  apply addEntity_inv in Ha as (σ1 & _ & _ & _ & _ & _ & _ & _ & ->).
  by rewrite fn_lookup_insert, enterWorld_components, lookup_insert_eq.
Qed.

(** X4.  Adding an entity and removing it again from the same world: the
    id is no longer live there, it sits at the tail of the pool, its
    component set is gone so that [getEntityComponents] throws
    "entity does not exist in the world", and [eidToWorld] keeps the
    entry that [addEntity] wrote. *)
Theorem addEntity_then_removeEntity `{Collaborators} (σ σ1 : state) r eid :
  addEntity σ r = Some (eid, σ1) →
  let σ2 := removeEntity σ1 r eid in
  ¬ live σ2 r eid
  ∧ removed σ2 = removed σ1 ++ [eid]
  ∧ globalEntityCursor σ2 = globalEntityCursor σ1
  ∧ entityComponents (worlds σ2 r) !! eid = None
  ∧ getEntityComponents (worlds σ2 r) (Some eid) = Throw EntityNotFound
  ∧ eidToWorld σ2 !! eid = Some r.
Proof.
  intros Ha σ2.
  assert (live σ1 r eid) as Hl
    by (apply (proj2 (addEntity_live _ _ _ _ r eid Ha)); by right).
  assert (¬ live σ2 r eid) as Hn.
  { subst σ2. rewrite removeEntity_liveness. naive_solver. }
  split_and!.
  - exact Hn.
  - subst σ2. by rewrite (removeEntity_present _ _ _ Hl).
  - apply removeEntity_globals.
  - subst σ2. rewrite (removeEntity_present _ _ _ Hl). simpl.
    rewrite fn_lookup_insert.
    destruct (leaveWorld_fields eid (worlds σ1 r)) as (_ & -> & _).
    apply lookup_delete_eq.
  - unfold getEntityComponents.
    destruct (sparse_has _ eid) eqn:Hh; [|done].
    by apply sparse_has_live in Hh.
  - subst σ2. rewrite removeEntity_eidToWorld_frame.
    by apply addEntity_owner in Ha.
Qed.

(** ** What a call leaves alone *)

Lemma enterWorld_rest `{Collaborators} eid (w : world) :
  entityMasks (enterWorld eid w) = entityMasks w
  ∧ localEntities (enterWorld eid w) = localEntities w
  ∧ localEntityLookup (enterWorld eid w) = localEntityLookup w
  ∧ notQueries (enterWorld eid w) = notQueries w.
Proof.
  unfold enterWorld. simpl.
  match goal with |- context [foldl ?f ?a ?l] =>
    destruct (foldl_sameButQueries f (notQueryStep_same eid) l a)
      as (_ & _ & -> & -> & -> & ->) end.
  done.
Qed.

Lemma growIfFull_rest `{Collaborators} (σ : state) r :
  localEntities (worlds (growIfFull σ) r) = localEntities (worlds σ r)
  ∧ localEntityLookup (worlds (growIfFull σ) r) = localEntityLookup (worlds σ r)
  ∧ notQueries (worlds (growIfFull σ) r) = notQueries (worlds σ r)
  ∧ queries (worlds (growIfFull σ) r) = queries (worlds σ r).
Proof. unfold growIfFull. by destruct (storesFull σ). Qed.

(** X5.  [removeEntity] of a live id touches nothing but that id in that
    world and the tail of the pool: every other world is unchanged, cursor,
    capacity, default size and threshold are unchanged, and for every other
    id of the world liveness, component set, deserialization lookup and the
    value in each bitmask row are as before; the local-to-global map loses
    at most the entry of the local id that the removed id was known by. *)
Theorem removeEntity_frame `{Collaborators} (σ : state) r eid :
  live σ r eid →
  let σ' := removeEntity σ r eid in
  let w := worlds σ r in
  let w' := worlds σ' r in
  (∀ r0, r0 ≠ r → worlds σ' r0 = worlds σ r0)
  ∧ globalEntityCursor σ' = globalEntityCursor σ
  ∧ globalSize σ' = globalSize σ
  ∧ defaultSize σ' = defaultSize σ
  ∧ removedReuseThreshold σ' = removedReuseThreshold σ
  ∧ (∀ lid, localEntityLookup w !! eid ≠ Some lid →
       localEntities w' !! lid = localEntities w !! lid)
  ∧ (∀ e0, e0 ≠ eid →
       (live σ' r e0 ↔ live σ r e0)
       ∧ entityComponents w' !! e0 = entityComponents w !! e0
       ∧ localEntityLookup w' !! e0 = localEntityLookup w !! e0
       ∧ (∀ i row, entityMasks w !! i = Some row →
            ∃ row', entityMasks w' !! i = Some row' ∧ row' !! e0 = row !! e0)).
Proof.
  intros Hl σ' w w'.
  destruct (removeEntity_globals σ r eid) as (Hd & Hc & Hs & Ht & _).
  assert (worlds σ' = <[r := leaveWorld eid w]> (worlds σ)) as Hw
    by (subst σ' w; by rewrite (removeEntity_present _ _ _ Hl)).
  assert (w' = leaveWorld eid w) as Hw'
    by (subst w'; rewrite Hw; apply fn_lookup_insert).
  destruct (leaveWorld_fields eid w) as (Hsp & Hco & Hma & Hle & Hll).
  split_and!; try done.
  - intros r0 Hne. rewrite Hw. by apply fn_lookup_insert_ne.
  - intros lid Hlid. rewrite Hw', Hle. unfold forgetLocal.
    destruct (localEntityLookup w !! eid) as [l|] eqn:Hlk; [|done].
    apply lookup_delete_ne. congruence.
  - intros e0 Hne. split_and!.
    + subst σ'. rewrite removeEntity_liveness. naive_solver.
    + rewrite Hw', Hco. by apply lookup_delete_ne.
    + rewrite Hw', Hll. by apply lookup_delete_ne.
    + intros i row Hrow. exists (<[eid := 0]> row). split.
      * rewrite Hw', Hma. unfold clearMasks. by rewrite list_lookup_fmap, Hrow.
      * by apply lookup_insert_ne.
Qed.

(** X6.  [addEntity] on one world leaves the entities of every other world
    alone (sparse set, component sets, deserialization maps, queries), and
    the other worlds entirely when it does not grow; in its own world it
    changes liveness and component set of the returned id only, never the
    deserialization maps, and without growth never the bitmask rows; in
    [eidToWorld] it writes the entry of the returned id only. *)
Theorem addEntity_frame `{Collaborators} (σ σ' : state) r eid :
  addEntity σ r = Some (eid, σ') →
  (∀ r0, r0 ≠ r →
     entitySparseSet (worlds σ' r0) = entitySparseSet (worlds σ r0)
     ∧ entityComponents (worlds σ' r0) = entityComponents (worlds σ r0)
     ∧ localEntities (worlds σ' r0) = localEntities (worlds σ r0)
     ∧ localEntityLookup (worlds σ' r0) = localEntityLookup (worlds σ r0)
     ∧ queries (worlds σ' r0) = queries (worlds σ r0)
     ∧ (storesFull σ = false → worlds σ' r0 = worlds σ r0))
  ∧ (∀ e0, e0 ≠ eid →
       (live σ' r e0 ↔ live σ r e0)
       ∧ entityComponents (worlds σ' r) !! e0 = entityComponents (worlds σ r) !! e0
       ∧ eidToWorld σ' !! e0 = eidToWorld σ !! e0)
  ∧ localEntities (worlds σ' r) = localEntities (worlds σ r)
  ∧ localEntityLookup (worlds σ' r) = localEntityLookup (worlds σ r)
  ∧ (storesFull σ = false → entityMasks (worlds σ' r) = entityMasks (worlds σ r)).
Proof.
  intros Ha. pose proof (λ r0 e0, addEntity_live _ _ _ _ r0 e0 Ha) as Hlv.
  apply addEntity_inv in Ha as (σ1 & Hn & _ & _ & _ & _ & _ & He & Hw).
  apply nextEid_inv in Hn as (_ & _ & _ & He1 & Hw1 & _).
  rewrite Hw, Hw1, He, He1.
  destruct (enterWorld_rest eid (worlds (growIfFull σ) r)) as (Hma & Hle & Hll & _).
  destruct (growIfFull_rest σ r) as (Hgle & Hgll & _).
  split_and!.
  - intros r0 Hne. rewrite fn_lookup_insert_ne by done.
    destruct (growIfFull_rest σ r0) as (? & ? & _ & ?).
    split_and!; try done.
    + apply growIfFull_sparse.
    + apply growIfFull_components.
    + intros Hf. by rewrite (growIfFull_idle _ Hf).
  - intros e0 Hne. split_and!.
    + rewrite Hlv. naive_solver.
    + rewrite fn_lookup_insert, enterWorld_components, growIfFull_components.
      by apply lookup_insert_ne.
    + rewrite growIfFull_eidToWorld. by apply lookup_insert_ne.
  - rewrite fn_lookup_insert. congruence.
  - rewrite fn_lookup_insert. congruence.
  - intros Hf. rewrite fn_lookup_insert, Hma. by rewrite (growIfFull_idle _ Hf).
Qed.

(** ** Runs that recycle, runs that do not *)



(** X9.  Removing pairwise distinct live ids of a world one after the
    other appends them to the pool in the order of removal, ends their
    liveness in that world and changes the liveness of nothing else. *)
Theorem removeEntities_in_order `{Collaborators} (σ : state) r eids :
  NoDup eids → (∀ eid, eid ∈ eids → live σ r eid) →
  let σ' := removeEntities σ r eids in
  removed σ' = removed σ ++ eids
  ∧ globalEntityCursor σ' = globalEntityCursor σ
  ∧ (∀ eid, eid ∈ eids → ¬ live σ' r eid)
  ∧ (∀ r0 e0, ¬ (r0 = r ∧ e0 ∈ eids) → live σ' r0 e0 ↔ live σ r0 e0).
Proof.
  intros Hnd Hl.
  destruct (removeEntities_pool r eids σ Hnd Hl) as (Hp & _ & Hc & _ & _ & Hlv).
  cbv zeta. split_and!; try done.
  - intros eid Hin (_ & Hn)%Hlv. by apply Hn.
  - intros r0 e0 Hn. rewrite Hlv. naive_solver.
Qed.

(** ** The growth step *)

(** X10.  When the growth check fires, the capacity grows by a multiple of
    4 that is at least half the old capacity and less than half of it plus
    4, and the default size follows the new capacity. *)
Theorem growth_step_size `{Collaborators} (σ : state) :
  storesFull σ = true →
  let delta := globalSize (growIfFull σ) - globalSize σ in
  delta `mod` 4 = 0
  ∧ globalSize σ ≤ 2 * delta < globalSize σ + 8
  ∧ defaultSize (growIfFull σ) = globalSize (growIfFull σ).
Proof.
  intros Hf. rewrite (growIfFull_full _ Hf). simpl.
  rewrite growth_amount. split; [|split; [|done]].
  - replace (_ - globalSize σ) with ((globalSize σ + 7) / 8 * 4) by lia.
    apply Z_mod_mult.
  - Z.to_euclidean_division_equations. lia.
Qed.

(** X11.  After every call of [addEntity] from a sane configuration the
    cursor is at most one past 80% of the capacity, and a call that grew
    the stores is never followed at once by another growing call. *)
Theorem addEntity_keeps_headroom `{Collaborators} (σ : state) r :
  sane σ →
  ∃ eid σ', addEntity σ r = Some (eid, σ')
            ∧ 5 * (globalEntityCursor σ' - 1) < 4 * globalSize σ'
            ∧ (storesFull σ = true → storesFull σ' = false).
Proof.
  intros (Hs & Hd & Ht). destruct (storesFull σ) eqn:Hf.
  - destruct (addEntity_grown σ r Hf) as (σ' & Ha & Hc' & Hs' & _); [lia|].
    rewrite growth_amount in Hs'.
    exists 0, σ'. split; [exact Ha|].
    assert (5 ≤ globalSize σ')
      by (rewrite Hs'; Z.to_euclidean_division_equations; lia).
    split; [lia|]. intros _. apply storesFull_false. lia.
  - apply storesFull_false in Hf as Hlt.
    destruct (reuseDue σ) eqn:Hr.
    + destruct (reuseDue_nonempty σ Hd Ht Hr) as (e & rest & Hp).
      eexists _, _. split; [by apply addEntity_reuse|]. simpl. split; [lia|done].
    + eexists _, _. split; [by apply addEntity_fresh|]. simpl. split; [lia|done].
Qed.

(** ** Invariants over interleaved calls *)

Lemma calls_invariant `{Collaborators} (P : state → Prop) :
  (∀ σ c ret σ', P σ → call σ c = Some (ret, σ') → P σ') →
  ∀ cs σ ids σ', P σ → calls σ cs = Some (ids, σ') → P σ'.
Proof.
  intros Hstep cs. induction cs as [|c cs IH]; intros σ ids σ' HP; simpl.
  - by intros [= _ <-].
  - destruct (call σ c) as [[ret σ1]|] eqn:Hc; simpl; [|done].
    destruct (calls σ1 cs) as [[ids1 σ2]|] eqn:Hcs; simpl; [|done].
    intros [= _ <-]. eapply IH; [|exact Hcs]. by eapply Hstep.
Qed.

Lemma call_addEntity `{Collaborators} (σ σ' : state) r ret :
  call σ (CallAddEntity r) = Some (ret, σ') →
  ∃ eid, ret = Some eid ∧ addEntity σ r = Some (eid, σ').
Proof.
  simpl. destruct (addEntity σ r) as [[eid σ1]|]; simpl; [|done].
  intros [= <- <-]. by exists eid.
Qed.

Lemma addEntity_sizes `{Collaborators} (σ σ' : state) r eid :
  addEntity σ r = Some (eid, σ') →
  defaultSize σ' = defaultSize (growIfFull σ)
  ∧ globalSize σ' = globalSize (growIfFull σ)
  ∧ eidToWorld σ' = <[eid := r]> (eidToWorld σ).
Proof.
  intros (σ1 & Hn & -> & _ & -> & _ & _ & -> & _)%addEntity_inv.
  apply nextEid_inv in Hn as (-> & -> & _ & -> & _).
  by rewrite growIfFull_eidToWorld.
Qed.

(** X12.  Over every sequence of calls of [addEntity], [removeEntity],
    [setDefaultSize], [setRemovedRecycleThreshold] and [resetGlobals],
    [defaultSize] and [globalSize] stay equal once they are (as they are
    when the module is loaded): the capacity never departs from the
    default size, growth included. *)
Theorem defaultSize_tracks_globalSize `{Collaborators} cs (σ σ' : state) ids :
  defaultSize σ = globalSize σ →
  calls σ cs = Some (ids, σ') →
  defaultSize σ' = globalSize σ'.
Proof.
  apply (calls_invariant (λ σ, defaultSize σ = globalSize σ)).
  clear. intros σ c ret σ' HP Hc. destruct c as [r|r eid|n|t|].
  - apply call_addEntity in Hc as (eid & _ & (-> & -> & _)%addEntity_sizes).
    unfold growIfFull. by destruct (storesFull σ).
  - injection Hc as _ <-.
    destruct (removeEntity_globals σ r eid) as (-> & _ & -> & _). done.
  - by injection Hc as _ <-.
  - by injection Hc as _ <-.
  - by injection Hc as _ <-.
Qed.

Lemma call_eidToWorld `{Collaborators} (σ σ' : state) c ret :
  call σ c = Some (ret, σ') →
  dom (eidToWorld σ) ⊆ dom (eidToWorld σ')
  ∧ (∀ eid, ret = Some eid → is_Some (eidToWorld σ' !! eid))
  ∧ (recorded σ → recorded σ').
Proof.
  intros Hc. destruct c as [r|r eid|n|t|].
  - apply call_addEntity in Hc as (eid & -> & Ha).
    pose proof (λ r0 e0, addEntity_live _ _ _ _ r0 e0 Ha) as Hlv.
    apply addEntity_sizes in Ha as (_ & _ & He). unfold recorded. rewrite He. split_and!.
    + rewrite dom_insert_L. set_solver.
    + intros ? [= <-]. exists r. apply lookup_insert_eq.
    + intros Hrec r0 e0 [Hl | (_ & ->)]%Hlv.
      * destruct (decide (e0 = eid)) as [->|Hne].
        -- exists r. apply lookup_insert_eq.
        -- destruct (Hrec r0 e0 Hl) as (x & Hx). exists x.
           etrans; [apply lookup_insert_ne; congruence | exact Hx].
      * exists r. apply lookup_insert_eq.
  - injection Hc as <- <-. unfold recorded. rewrite removeEntity_eidToWorld_frame.
    split_and!; try done.
    intros Hrec r0 e0 (Hl & _)%removeEntity_liveness. by eapply Hrec.
  - injection Hc as <- <-. by split_and!.
  - injection Hc as <- <-. by split_and!.
  - injection Hc as <- <-. by split_and!.
Qed.

(** X13.  No call ever deletes an entry of [eidToWorld]: over every
    sequence of calls the ids that had an entry keep one, every id returned
    along the way has one at the end, and if every live id had an entry at
    the start then every live id has one at the end. *)
Theorem eidToWorld_only_grows `{Collaborators} cs : ∀ (σ σ' : state) ids,
  calls σ cs = Some (ids, σ') →
  dom (eidToWorld σ) ⊆ dom (eidToWorld σ')
  ∧ (∀ eid, eid ∈ ids → is_Some (eidToWorld σ' !! eid))
  ∧ (recorded σ → recorded σ').
Proof.
  induction cs as [|c cs IH]; intros σ σ' ids; simpl.
  - intros [= <- <-]. split_and!; try done. intros eid Hin. by apply elem_of_nil in Hin.
  - destruct (call σ c) as [[ret σ1]|] eqn:Hc; simpl; [|done].
    destruct (calls σ1 cs) as [[ids1 σ2]|] eqn:Hcs; simpl; [|done].
    intros [= <- <-].
    destruct (call_eidToWorld _ _ _ _ Hc) as (Hd1 & Hr1 & Hrec1).
    destruct (IH _ _ _ Hcs) as (Hd2 & Hr2 & Hrec2).
    split_and!.
    + set_solver.
    + intros eid Hin. destruct ret as [e|]; [|by apply Hr2].
      apply elem_of_cons in Hin as [->|Hin]; [|by apply Hr2].
      apply elem_of_dom, Hd2, elem_of_dom. by apply Hr1.
    + intros Hrec. by apply Hrec2, Hrec1.
Qed.

Lemma call_tagged `{Collaborators} (σ σ' : state) c ret :
  (∀ r, tagged (worlds σ r)) → call σ c = Some (ret, σ') →
  ∀ r, tagged (worlds σ' r).
Proof.
  intros Ht Hc. destruct c as [r|r eid|n|t|].
  - apply call_addEntity in Hc as (eid & _ & Ha). by eapply addEntity_tagged.
  - injection Hc as _ <-. by apply removeEntity_tagged.
  - injection Hc as _ <-. exact Ht.
  - injection Hc as _ <-. exact Ht.
  - injection Hc as _ <-. exact Ht.
Qed.

(** X14.  If every live id has a component set (as in newly created
    worlds), then after every sequence of calls [getEntityComponents]
    returns an array for every live id of every world, and for no argument
    does it fail in [Array.from]. *)
Theorem getEntityComponents_never_TypeError `{Collaborators} cs (σ σ' : state) ids :
  (∀ r, tagged (worlds σ r)) →
  calls σ cs = Some (ids, σ') →
  (∀ r eid, live σ' r eid →
     ∃ tags, getEntityComponents (worlds σ' r) (Some eid) = Return tags)
  ∧ (∀ r eid, getEntityComponents (worlds σ' r) eid ≠ Throw TypeError).
Proof.
  intros Ht Hcs.
  assert (∀ r, tagged (worlds σ' r)) as Ht'.
  { revert Ht Hcs. apply (calls_invariant (λ σ, ∀ r, tagged (worlds σ r))).
    intros. by eapply call_tagged. }
  split.
  - intros r eid Hl. destruct (Ht' r eid Hl) as (tags & Htags).
    exists tags. unfold getEntityComponents.
    rewrite (proj2 (sparse_has_live σ' r eid) Hl). simpl. by rewrite Htags.
  - intros r [eid|]; [|done]. unfold getEntityComponents.
    destruct (sparse_has _ eid) eqn:Hh; simpl; [|done].
    apply sparse_has_live in Hh. by destruct (Ht' r eid Hh) as (tags & ->).
Qed.

Lemma addEntity_inBounds `{Collaborators} (σ : state) r :
  inBounds σ →
  ∃ eid σ', addEntity σ r = Some (eid, σ')
            ∧ inBounds σ'
            ∧ globalSize σ ≤ globalSize σ'
            ∧ 0 ≤ eid < globalSize σ'.
Proof.
  intros ((Hs & Hd & Ht) & Hc & Hlive & Hpool).
  destruct (storesFull σ) eqn:Hf.
  - destruct (addEntity_grown σ r Hf) as (σ' & Ha & Hc' & Hs' & Hd' & Hp' & Ht');
      [lia|].
    pose proof (λ r0 e0, addEntity_live _ _ _ _ r0 e0 Ha) as Hlv.
    pose proof (growth_amount_nonneg (globalSize σ)) as Hamt.
    exists 0, σ'. split; [exact Ha|].
    unfold inBounds, sane. rewrite Hc', Hd', Hp', Ht', Hs'.
    split_and!; try done; try lia.
    + intros r0 e0 [Hl | (_ & ->)]%Hlv; [|lia]. apply Hlive in Hl. lia.
    + intros e0 Hin. by apply elem_of_nil in Hin.
  - apply storesFull_false in Hf as Hlt.
    destruct (reuseDue σ) eqn:Hr.
    + destruct (reuseDue_nonempty σ Hd Ht Hr) as (e & rest & Hp).
      pose proof (addEntity_reuse _ r _ _ Hf Hr Hp) as Ha.
      pose proof (λ r0 e0, addEntity_live _ _ _ _ r0 e0 Ha) as Hlv.
      assert (0 ≤ e < globalSize σ) as He by (apply Hpool; rewrite Hp; by left).
      eexists _, _. split; [exact Ha|].
      unfold inBounds, sane. simpl. split_and!; try done; try lia.
      * intros r0 e0 [Hl | (_ & ->)]%Hlv; [by apply (Hlive r0)|done].
      * intros e0 Hin. apply Hpool. rewrite Hp. by right.
    + pose proof (addEntity_fresh _ r Hf Hr) as Ha.
      pose proof (λ r0 e0, addEntity_live _ _ _ _ r0 e0 Ha) as Hlv.
      eexists _, _. split; [exact Ha|].
      unfold inBounds, sane. simpl. split_and!; try done; try lia.
      intros r0 e0 [Hl | (_ & ->)]%Hlv; [by apply (Hlive r0)|lia].
Qed.

Lemma removeEntity_inBounds `{Collaborators} (σ : state) r eid :
  inBounds σ → inBounds (removeEntity σ r eid).
Proof.
  intros (Hsane & Hc & Hlive & Hpool).
  destruct (decide (eid ∈ entitySparseSet (worlds σ r))) as [Hl|Hn];
    fold (live σ r eid) in *.
  - destruct (removeEntity_globals σ r eid) as (Hd' & Hc' & Hs' & Ht' & _).
    unfold inBounds, sane. rewrite Hd', Hc', Hs', Ht'.
    split_and!; try done; try apply Hsane; try lia.
    + intros r0 e0 (Hl0 & _)%removeEntity_liveness. by apply (Hlive r0).
    + intros e0. rewrite (removeEntity_present _ _ _ Hl). simpl.
      rewrite elem_of_app, list_elem_of_singleton.
      intros [Hin| ->]; [by apply Hpool | by apply (Hlive r)].
  - by rewrite (removeEntity_absent _ _ _ Hn).
Qed.

(** X15.  From a state in which capacity is positive and every known id
    (live or pooled) and the cursor lie within it, every interleaving of
    [addEntity] and [removeEntity] calls runs to its end, keeps that
    property, never shrinks the capacity, and every id it returns is a
    non-negative integer below the final capacity. *)
Theorem lifecycle_ids_within_capacity `{Collaborators} cs : ∀ σ : state,
  forallb lifecycle cs = true →
  inBounds σ →
  ∃ ids σ', calls σ cs = Some (ids, σ')
            ∧ inBounds σ'
            ∧ globalSize σ ≤ globalSize σ'
            ∧ (∀ eid, eid ∈ ids → 0 ≤ eid < globalSize σ').
Proof.
  induction cs as [|c cs IH]; intros σ Hcs Hb.
  - exists [], σ. split_and!; try done. intros eid Hin. by apply elem_of_nil in Hin.
  - simpl in Hcs. apply andb_true_iff in Hcs as (Hc & Hcs).
    destruct c as [r|r eid|n|t|]; try discriminate Hc.
    + destruct (addEntity_inBounds σ r Hb) as (eid & σ1 & Ha & Hb1 & Hs1 & He).
      destruct (IH σ1 Hcs Hb1) as (ids & σ' & Hr & Hb' & Hs' & Hids).
      exists (eid :: ids), σ'. simpl. rewrite Ha. simpl. rewrite Hr. simpl.
      split_and!; try done; [lia|].
      intros e0 [->|Hin]%elem_of_cons; [lia|by apply Hids].
    + destruct (IH (removeEntity σ r eid) Hcs (removeEntity_inBounds σ r eid Hb))
        as (ids & σ' & Hr & Hb' & Hs' & Hids).
      exists ids, σ'. simpl. rewrite Hr. simpl.
      destruct (removeEntity_globals σ r eid) as (_ & _ & Hs1 & _).
      split_and!; try done. lia.
Qed.

Lemma addEntity_cursor_step `{Collaborators} (σ σ' : state) r eid :
  storesFull σ = false → addEntity σ r = Some (eid, σ') →
  globalSize σ' = globalSize σ
  ∧ globalEntityCursor σ ≤ globalEntityCursor σ' ≤ globalEntityCursor σ + 1.
Proof.
  intros Hf (σ1 & Hn & _ & -> & -> & _)%addEntity_inv.
  rewrite (growIfFull_idle _ Hf) in Hn.
  apply nextEid_inv in Hn as (_ & -> & _ & _ & _ & Hcase).
  split; [done|]. destruct Hcase as [(_ & _ & ->) | (_ & _ & -> & _)]; lia.
Qed.

(** X16.  Before the stores first grow, the allocator's bookkeeping holds
    across every interleaving of [addEntity] and [removeEntity]: if the
    cursor cannot reach the growth bound within the number of calls made,
    then at the end an id is live in at most one world, [eidToWorld] names
    that world, no live id is pooled, and no id is pooled twice. *)
Theorem lifecycle_consistent_before_growth `{Collaborators} cs : ∀ (σ σ' : state) ids,
  forallb lifecycle cs = true →
  5 * (globalEntityCursor σ + Z.of_nat (length cs)) < 4 * globalSize σ + 5 →
  consistent σ →
  calls σ cs = Some (ids, σ') →
  consistent σ'
  ∧ globalSize σ' = globalSize σ
  ∧ (∀ r1 r2 eid, live σ' r1 eid → live σ' r2 eid → r1 = r2)
  ∧ (∀ r eid, live σ' r eid → eidToWorld σ' !! eid = Some r ∧ eid ∉ removed σ')
  ∧ NoDup (removed σ').
Proof.
  induction cs as [|c cs IH]; intros σ σ' ids Hcs Hlt Hcon; simpl.
  - intros [= _ <-]. split_and!; try done.
    + intros r1 r2 eid. by apply consistent_one_world.
    + intros r eid Hl. destruct Hcon as (Hown & Hlive & _).
      split; [by apply Hown | by apply (Hlive r)].
    + apply Hcon.
  - simpl in Hcs. apply andb_true_iff in Hcs as (Hc & Hcs). simpl length in Hlt.
    destruct c as [r|r eid|n|t|]; try discriminate Hc; simpl.
    + destruct (addEntity σ r) as [[eid σ1]|] eqn:Ha; simpl; [|done].
      destruct (calls σ1 cs) as [[ids1 σ2]|] eqn:Hr; simpl; [|done].
      intros [= _ <-].
      assert (storesFull σ = false) as Hf by (apply storesFull_false; lia).
      destruct (addEntity_cursor_step _ _ _ _ Hf Ha) as (Hs1 & Hc1).
      destruct (IH σ1 σ2 ids1 Hcs) as (Hcon2 & Hs2 & Hone & Hown & Hnd);
        [lia | by eapply consistent_addEntity | exact Hr |].
      split_and!; try done. lia.
    + destruct (calls (removeEntity σ r eid) cs) as [[ids1 σ2]|] eqn:Hr; simpl; [|done].
      intros [= _ <-].
      destruct (removeEntity_globals σ r eid) as (_ & Hc1 & Hs1 & _).
      destruct (IH (removeEntity σ r eid) σ2 ids1 Hcs)
        as (Hcon2 & Hs2 & Hone & Hown & Hnd);
        [lia | by apply consistent_removeEntity | exact Hr |].
      split_and!; try done. lia.
Qed.

(** ** Notifications and resets *)

Lemma addEntity_stores `{Collaborators} (σ σ' : state) r eid :
  addEntity σ r = Some (eid, σ') →
  stores σ' = stores (growIfFull σ) ∧ console σ' = console (growIfFull σ).
Proof.
  unfold addEntity, nextEid.
  destruct (reuseDue (growIfFull σ)).
  - destruct (removed (growIfFull σ)) as [|e rest]; simpl; [done|].
    by intros [= _ <-].
  - simpl. by intros [= _ <-].
Qed.

(** X17.  [addEntity] notifies its collaborators exactly when it grows:
    without growth the component stores, the serializer flag and the
    console are untouched; with growth the component stores are resized to
    the new capacity, the serializer is flagged as resized, and one notice
    with the old and the new capacity is written. *)
Theorem addEntity_notifies_on_growth `{Collaborators} (σ σ' : state) r eid :
  addEntity σ r = Some (eid, σ') →
  if storesFull σ then
    stores σ' = setSerializationResized true (resizeComponents (globalSize σ') (stores σ))
    ∧ console σ' = console σ ++ [(globalSize σ, globalSize σ')]
    ∧ ∀ r0, entityMasks (worlds σ' r0) = resizeMasks (globalSize σ') (entityMasks (worlds σ r0))
  else
    stores σ' = stores σ ∧ console σ' = console σ.
Proof.
  intros Ha. destruct (addEntity_stores _ _ _ _ Ha) as (-> & ->).
  pose proof (addEntity_sizes _ _ _ _ Ha) as (_ & Hs & _).
  destruct (storesFull σ) eqn:Hf.
  - rewrite Hs, (growIfFull_full _ Hf). simpl. split_and!; try done.
    intros r0.
    apply addEntity_inv in Ha as (σ1 & Hn & _ & _ & _ & _ & _ & _ & ->).
    apply nextEid_inv in Hn as (_ & _ & _ & _ & -> & _).
    rewrite (growIfFull_full _ Hf).
    destruct (decide (r0 = r)) as [->|Hne].
    + rewrite fn_lookup_insert.
      by destruct (enterWorld_rest eid
        (worlds (setDefaultSize
           (globalSize σ + Math_ceil (inject_Z (globalSize σ) / 2 / 4)%Q * 4) σ) r))
        as (-> & _).
    + by rewrite fn_lookup_insert_ne.
  - by rewrite (growIfFull_idle _ Hf).
Qed.

(** X18.  [resetGlobals] resets the allocator but neither the worlds nor
    [eidToWorld]: with a positive default size the next [addEntity] returns
    id 0 at that capacity, while every id that was live before the reset is
    still live and every [eidToWorld] entry other than that of id 0 is
    still there. *)
Theorem resetGlobals_restarts_ids `{Collaborators} (σ : state) r :
  0 < defaultSize σ →
  ∃ σ', addEntity (resetGlobals σ) r = Some (0, σ')
        ∧ globalSize σ' = defaultSize σ
        ∧ globalEntityCursor σ' = 1
        ∧ removed σ' = []
        ∧ removedReuseThreshold σ' = defaultRemovedReuseThreshold
        ∧ (∀ r0 e0, live σ r0 e0 → live σ' r0 e0)
        ∧ (∀ e0, e0 ≠ 0 → eidToWorld σ' !! e0 = eidToWorld σ !! e0).
Proof.
  intros Hn.
  assert (storesFull (resetGlobals σ) = false) as Hf.
  { apply storesFull_false. simpl. lia. }
  assert (reuseDue (resetGlobals σ) = false) as Hr.
  { apply reuseDue_empty; simpl; [done|lia|done]. }
  pose proof (addEntity_fresh _ r Hf Hr) as Ha.
  eexists. split; [exact Ha|]. simpl. split_and!; try done.
  - intros r0 e0 Hl. apply (proj2 (addEntity_live _ _ _ _ r0 e0 Ha)). by left.
  - intros e0 Hne. by apply lookup_insert_ne.
Qed.

(** ** Instances of the further properties *)

Lemma demoState_live_inv r eid :
  live (H := idle) demoState r eid → r = 0%nat ∧ eid = 7.
Proof.
  unfold live, demoState. destruct r as [|r]; simpl.
  - intros ->%elem_of_singleton. done.
  - intros Hin. by apply not_elem_of_empty in Hin.
Defined.

Lemma demoState_tagged : ∀ r, tagged (H := idle) (worlds demoState r).
Proof.
  intros r eid Hin. destruct (demoState_live_inv r eid Hin) as (-> & ->).
  simpl. rewrite lookup_singleton_eq. by eexists.
Defined.

Lemma demoState_inBounds : inBounds (H := idle) demoState.
Proof.
  split; [exact demoState_sane|]. split; [simpl; lia|]. split.
  - intros r eid (-> & ->)%demoState_live_inv. simpl. lia.
  - intros eid Hin. by apply elem_of_nil in Hin.
Defined.

Lemma demoState_consistent : consistent (H := idle) demoState.
Proof.
  split_and!.
  - intros r eid (-> & ->)%demoState_live_inv. simpl. apply lookup_singleton_eq.
  - intros r eid (-> & ->)%demoState_live_inv. simpl. split; [lia|].
    intros Hin. by apply elem_of_nil in Hin.
  - intros eid Hin. by apply elem_of_nil in Hin.
  - constructor.
Defined.

Lemma setDefaultSize_restarts_ids_witness :
  0 < 5
  ∧ ∃ σ', addEntity (H := idle) (setDefaultSize 5 demoState) 0%nat = Some (0, σ')
          ∧ globalSize σ' = 5
          ∧ live σ' 0%nat 7.
Proof.
  assert (0 < 5) as Hn by lia. split; [exact Hn|].
  destruct (setDefaultSize_restarts_ids (H := idle) demoState 5 0%nat Hn)
    as (σ' & Ha & Hs & _ & _ & _ & Hl).
  exists σ'. split; [exact Ha|]. split; [exact Hs|].
  apply Hl. exact demoState_live.
Defined.

Lemma addEntity_threshold_witness :
  ∃ eid σ',
    addEntity (H := idle) (setRemovedRecycleThreshold (1 # 2)%Q demoState) 0%nat
    = Some (eid, σ')
    ∧ removedReuseThreshold σ' = (1 # 2)%Q.
Proof.
  destruct (addEntity (H := idle) (setRemovedRecycleThreshold (1 # 2)%Q demoState) 0%nat)
    as [[eid σ']|] eqn:E.
  - exists eid, σ'. split; [reflexivity|].
    exact (addEntity_threshold (H := idle) demoState σ' (1 # 2)%Q 0%nat eid E).
  - vm_compute in E. discriminate E.
Defined.

Lemma addEntity_then_getEntityComponents_witness :
  ∃ eid σ',
    addEntity (H := idle) demoState 0%nat = Some (eid, σ')
    ∧ getEntityComponents (H := idle) (worlds σ' 0%nat) (Some eid) = Return [].
Proof.
  destruct (addEntity (H := idle) demoState 0%nat) as [[eid σ']|] eqn:E.
  - exists eid, σ'. split; [reflexivity|].
    exact (proj2 (addEntity_then_getEntityComponents (H := idle) demoState σ' 0%nat eid E)).
  - vm_compute in E. discriminate E.
Defined.

Lemma addEntity_then_removeEntity_witness :
  ∃ eid σ1,
    addEntity (H := idle) demoState 0%nat = Some (eid, σ1)
    ∧ removed (removeEntity (H := idle) σ1 0%nat eid) = removed σ1 ++ [eid].
Proof.
  destruct (addEntity (H := idle) demoState 0%nat) as [[eid σ1]|] eqn:E.
  - exists eid, σ1. split; [reflexivity|].
    exact (proj1 (proj2 (addEntity_then_removeEntity (H := idle) demoState σ1 0%nat eid E))).
  - vm_compute in E. discriminate E.
Defined.

Lemma removeEntity_frame_witness :
  live (H := idle) demoState 0%nat 7
  ∧ globalEntityCursor (removeEntity (H := idle) demoState 0%nat 7) = 8.
Proof.
  split; [exact demoState_live|].
  exact (proj1 (proj2 (removeEntity_frame (H := idle) demoState 0%nat 7 demoState_live))).
Defined.

Lemma addEntity_frame_witness :
  ∃ eid σ',
    addEntity (H := idle) demoState 1%nat = Some (eid, σ')
    ∧ (live σ' 1%nat 7 ↔ live demoState 1%nat 7).
Proof.
  destruct (addEntity (H := idle) demoState 1%nat) as [[eid σ']|] eqn:E.
  - exists eid, σ'. split; [reflexivity|].
    assert (7 ≠ eid) as Hne.
    { vm_compute in E. injection E as <- _. discriminate. }
    destruct (addEntity_frame (H := idle) demoState σ' 1%nat eid E) as (_ & Hid & _).
    exact (proj1 (Hid 7 Hne)).
  - vm_compute in E. discriminate E.
Defined.



Lemma removeEntities_in_order_witness :
  NoDup [7]
  ∧ removed (removeEntities (H := idle) demoState 0%nat [7]) = [7].
Proof.
  assert (NoDup [7]) as Hnd by (apply list.NoDup_singleton).
  split; [exact Hnd|].
  refine (proj1 (removeEntities_in_order (H := idle) demoState 0%nat [7] Hnd _)).
  intros eid ->%list_elem_of_singleton. exact demoState_live.
Defined.

Lemma growth_step_size_witness :
  storesFull (H := idle) fullState = true
  ∧ (globalSize (growIfFull (H := idle) fullState) - globalSize fullState) `mod` 4 = 0.
Proof.
  assert (storesFull (H := idle) fullState = true) as Hf by (vm_compute; reflexivity).
  split; [exact Hf|].
  exact (proj1 (growth_step_size (H := idle) fullState Hf)).
Defined.

Lemma addEntity_keeps_headroom_witness :
  sane (H := idle) demoState
  ∧ ∃ eid σ', addEntity (H := idle) demoState 0%nat = Some (eid, σ')
              ∧ 5 * (globalEntityCursor σ' - 1) < 4 * globalSize σ'.
Proof.
  split; [exact demoState_sane|].
  destruct (addEntity_keeps_headroom (H := idle) demoState 0%nat demoState_sane)
    as (eid & σ' & Ha & Hh & _).
  exists eid, σ'. split; [exact Ha | exact Hh].
Defined.

Lemma defaultSize_tracks_globalSize_witness :
  defaultSize demoState = globalSize demoState
  ∧ ∃ ids σ',
      calls (H := idle) demoState
            [CallAddEntity 0%nat; CallSetDefaultSize 7; CallRemoveEntity 0%nat 7]
      = Some (ids, σ')
      ∧ defaultSize σ' = globalSize σ'.
Proof.
  assert (defaultSize demoState = globalSize demoState) as Hd by reflexivity.
  split; [exact Hd|].
  destruct (calls (H := idle) demoState
              [CallAddEntity 0%nat; CallSetDefaultSize 7; CallRemoveEntity 0%nat 7])
    as [[ids σ']|] eqn:E.
  - exists ids, σ'. split; [reflexivity|].
    exact (defaultSize_tracks_globalSize (H := idle) _ demoState σ' ids Hd E).
  - vm_compute in E. discriminate E.
Defined.

Lemma eidToWorld_only_grows_witness :
  ∃ ids σ',
    calls (H := idle) demoState [CallRemoveEntity 0%nat 7; CallResetGlobals]
    = Some (ids, σ')
    ∧ dom (eidToWorld demoState) ⊆ dom (eidToWorld σ').
Proof.
  destruct (calls (H := idle) demoState [CallRemoveEntity 0%nat 7; CallResetGlobals])
    as [[ids σ']|] eqn:E.
  - exists ids, σ'. split; [reflexivity|].
    exact (proj1 (eidToWorld_only_grows (H := idle) _ demoState σ' ids E)).
  - vm_compute in E. discriminate E.
Defined.

Lemma getEntityComponents_never_TypeError_witness :
  (∀ r, tagged (H := idle) (worlds demoState r))
  ∧ ∃ ids σ',
      calls (H := idle) demoState [CallAddEntity 0%nat; CallSetDefaultSize 7]
      = Some (ids, σ')
      ∧ ∀ r eid, getEntityComponents (H := idle) (worlds σ' r) eid ≠ Throw TypeError.
Proof.
  split; [exact demoState_tagged|].
  destruct (calls (H := idle) demoState [CallAddEntity 0%nat; CallSetDefaultSize 7])
    as [[ids σ']|] eqn:E.
  - exists ids, σ'. split; [reflexivity|].
    exact (proj2 (getEntityComponents_never_TypeError (H := idle) _ demoState σ' ids
                    demoState_tagged E)).
  - vm_compute in E. discriminate E.
Defined.

Lemma lifecycle_ids_within_capacity_witness :
  inBounds (H := idle) demoState
  ∧ ∃ ids σ',
      calls (H := idle) demoState
            [CallAddEntity 0%nat; CallRemoveEntity 0%nat 7; CallAddEntity 1%nat]
      = Some (ids, σ')
      ∧ ∀ eid, eid ∈ ids → 0 ≤ eid < globalSize σ'.
Proof.
  split; [exact demoState_inBounds|].
  destruct (lifecycle_ids_within_capacity (H := idle)
              [CallAddEntity 0%nat; CallRemoveEntity 0%nat 7; CallAddEntity 1%nat]
              demoState eq_refl demoState_inBounds)
    as (ids & σ' & Hr & _ & _ & Hids).
  exists ids, σ'. split; [exact Hr | exact Hids].
Defined.

Lemma lifecycle_consistent_before_growth_witness :
  consistent (H := idle) demoState
  ∧ ∃ ids σ',
      calls (H := idle) demoState
            [CallAddEntity 1%nat; CallRemoveEntity 0%nat 7]
      = Some (ids, σ')
      ∧ consistent σ'.
Proof.
  split; [exact demoState_consistent|].
  destruct (calls (H := idle) demoState [CallAddEntity 1%nat; CallRemoveEntity 0%nat 7])
    as [[ids σ']|] eqn:E.
  - exists ids, σ'. split; [reflexivity|].
    refine (proj1 (lifecycle_consistent_before_growth (H := idle)
                     [CallAddEntity 1%nat; CallRemoveEntity 0%nat 7] demoState σ' ids
                     eq_refl _ demoState_consistent E)).
    vm_compute. reflexivity.
  - vm_compute in E. discriminate E.
Defined.

Lemma addEntity_notifies_on_growth_witness :
  ∃ eid σ',
    addEntity (H := idle) fullState 0%nat = Some (eid, σ')
    ∧ console σ' = [(100000, globalSize σ')].
Proof.
  destruct (addEntity (H := idle) fullState 0%nat) as [[eid σ']|] eqn:E.
  - exists eid, σ'. split; [reflexivity|].
    exact (proj1 (proj2 (addEntity_notifies_on_growth (H := idle) fullState σ' 0%nat eid E))).
  - vm_compute in E. discriminate E.
Defined.

Lemma resetGlobals_restarts_ids_witness :
  0 < defaultSize demoState
  ∧ ∃ σ', addEntity (H := idle) (resetGlobals demoState) 0%nat = Some (0, σ')
          ∧ live σ' 0%nat 7.
Proof.
  assert (0 < defaultSize demoState) as Hn by (simpl; lia).
  split; [exact Hn|].
  destruct (resetGlobals_restarts_ids (H := idle) demoState 0%nat Hn)
    as (σ' & Ha & _ & _ & _ & _ & Hl & _).
  exists σ'. split; [exact Ha|]. apply Hl. exact demoState_live.
Defined.
